(** * The ingestion script [embed_all_files.py]: corpus reader, chunker and
      entry builder, embedded in Rocq.

    The Python functions [read_files], [chunk_text] and [main] are translated
    into executable definitions.  Python [str] values are [string]s whose
    characters are read as code points below 256; Python [int]s are [Z];
    list positions produced by [enumerate] are [nat].  A [while] loop that
    the source does not bound is run on fuel, and running out of fuel is a
    result of its own ([Timeout]), distinct from returning and from raising. *)

From Stdlib Require Import String Ascii List ZArith NArith Lia Bool Arith.
From Stdlib Require Import DecimalString DecimalNat DecimalFacts.
From Stdlib Require Import Permutation.
Import ListNotations.

Local Open Scope string_scope.
Local Open Scope list_scope.

Set Warnings "-register-all".

(** ** Outcomes of a Python computation *)

Inductive exn : Type :=
| OSError
| IndexError
| SystemExit (code : Z).

Inductive run (A : Type) : Type :=
| Done (a : A)
| Raise (e : exn)
| Timeout.

Arguments Done {A} a.
Arguments Raise {A} e.
Arguments Timeout {A}.

Definition bind {A B : Type} (m : run A) (k : A -> run B) : run B :=
  match m with
  | Done a => k a
  | Raise e => Raise e
  | Timeout => Timeout
  end.

Notation "x <- m ;; k" := (bind m (fun x => k))
  (at level 61, m at next level, right associativity).

(** ** Python built-ins used by the script *)

Module Py.

(** [str.isspace] on one character, for code points below 256:
    TAB..CR, FS..US, SPACE, NEL and NBSP. *)
Definition isspace (c : ascii) : bool :=
  let n := N_of_ascii c in
  ((9 <=? n) && (n <=? 13) || (28 <=? n) && (n <=? 32)
   || (n =? 133) || (n =? 160))%N.

(** A finished word is emitted only when it is not empty. *)
Definition flush (cur : string) : list string :=
  match cur with
  | EmptyString => []
  | _ => [cur]
  end.

(** [s.split()] with no separator: maximal runs of non-whitespace
    characters.  [cur] is the word being scanned. *)
Fixpoint split_from (cur s : string) : list string :=
  match s with
  | EmptyString => flush cur
  | String c s' =>
      if isspace c then flush cur ++ split_from EmptyString s'
      else split_from (cur ++ String c EmptyString)%string s'
  end.

Definition split (s : string) : list string := split_from EmptyString s.

(** [sep.join(ws)]. *)
Fixpoint join (sep : string) (ws : list string) : string :=
  match ws with
  | [] => EmptyString
  | [w] => w
  | w :: rest => (w ++ sep ++ join sep rest)%string
  end.

(** Index adjustment of a slice bound [k] against a sequence of length
    [len]: negative bounds count from the end, and both are clipped. *)
Definition adjust_index (len k : Z) : Z :=
  if (k <? 0)%Z then Z.max 0 (k + len) else Z.min k len.

(** [l[a:b]] for arbitrary integers [a] and [b]. *)
Definition slice {A : Type} (l : list A) (a b : Z) : list A :=
  let len := Z.of_nat (List.length l) in
  let a' := adjust_index len a in
  let b' := adjust_index len b in
  firstn (Z.to_nat (b' - a')) (skipn (Z.to_nat a') l).

(** [str(i)] for a non-negative integer: its decimal numeral. *)
Definition str_of_nat (i : nat) : string :=
  NilEmpty.string_of_uint (Nat.to_uint i).

(** [x or d] on strings: the empty string is falsy. *)
Definition or_else (x d : string) : string :=
  match x with
  | EmptyString => d
  | _ => x
  end.

(** [xs[i]] on a list, raising [IndexError] out of range. *)
Definition index {A : Type} (xs : list A) (i : nat) : run A :=
  match nth_error xs i with
  | Some x => Done x
  | None => Raise IndexError
  end.

(** [bytes.decode('utf-8', errors)], for the locale's codec taken to be
    UTF-8, over the characters the strings here have (U+0000 to U+00FF).
    A byte below 0x80 is its character; 0xC2 or 0xC3 followed by a
    continuation byte (0x80 to 0xBF) is one of U+0080 to U+00FF.  A stray
    continuation byte, 0xC0, 0xC1, 0xF5 to 0xFF, and a 0xC2 or 0xC3 that
    no continuation byte follows, are malformed: ['strict'] raises
    there, ['ignore'] drops the byte and goes on.  The bytes 0xC4 to
    0xF4 start characters above U+00FF: [Unsupported]. *)
Inductive errors : Type := strict | ignore.

Inductive decoding : Type :=
| Decoded (s : string)
| UnicodeDecodeError
| Unsupported.

Definition is_continuation (b : Byte.byte) : bool :=
  let n := Byte.to_N b in ((128 <=? n) && (n <=? 191))%N.

Definition on_error (e : errors) (k : decoding) : decoding :=
  match e with
  | strict => UnicodeDecodeError
  | ignore => k
  end.

Definition emit (c : ascii) (k : decoding) : decoding :=
  match k with
  | Decoded s => Decoded (String c s)
  | other => other
  end.

Fixpoint decode (e : errors) (raw : list Byte.byte) : decoding :=
  match raw with
  | [] => Decoded EmptyString
  | b :: rest =>
      let n := Byte.to_N b in
      if (n <? 128)%N then emit (ascii_of_N n) (decode e rest)
      else if ((n =? 194) || (n =? 195))%N then
        match rest with
        | c :: rest' =>
            if is_continuation c then
              emit (ascii_of_N ((n - 192) * 64 + (Byte.to_N c - 128)))
                (decode e rest')
            else on_error e (decode e rest)
        | [] => on_error e (Decoded EmptyString)
        end
      else if ((196 <=? n) && (n <=? 244))%N then Unsupported
      else on_error e (decode e rest)
  end.

(** The newline translation of a file opened in text mode: CR LF and a
    lone CR are read as LF. *)
Fixpoint universal_newlines (s : string) : string :=
  match s with
  | EmptyString => EmptyString
  | String c s' =>
      if Ascii.eqb c "013"%char then
        match s' with
        | String c' s'' =>
            if Ascii.eqb c' "010"%char
            then String "010"%char (universal_newlines s'')
            else String "010"%char (universal_newlines s')
        | EmptyString => String "010"%char EmptyString
        end
      else String c (universal_newlines s')
  end.

End Py.

(** ** [chunk_text] *)

(** The [while i < len(words)] loop.  [chunks] is the list being appended
    to; every iteration spends one unit of fuel. *)
Fixpoint chunk_loop (fuel : nat) (words : list string) (max_words overlap : Z)
    (i : Z) (chunks : list string) : run (list string) :=
  match fuel with
  | O => Timeout
  | S fuel' =>
      if (i <? Z.of_nat (List.length words))%Z then
        chunk_loop fuel' words max_words overlap
          (i + (max_words - overlap))%Z
          (chunks ++ [Py.join " " (Py.slice words i (i + max_words)%Z)])
      else Done chunks
  end.

Definition chunk_text (fuel : nat) (text : string) (max_words overlap : Z)
    : run (list string) :=
  let words := Py.split text in
  if (Z.of_nat (List.length words) <=? max_words)%Z then Done [text]
  else chunk_loop fuel words max_words overlap 0%Z [].

(** The defaults of the signature: [max_words=600, overlap=100]. *)
Definition default_max_words : Z := 600.
Definition default_overlap : Z := 100.

(** ** The corpus on disk *)

(** What [Path] finds at a location.  For a regular file, [content] is the
    outcome of [read_text(errors='ignore')]: the text, or [None] when the
    call raises.  [Other] stands for a location with nothing to read that
    is neither a regular file nor a directory (a path that does not exist,
    a socket, a dangling link).  [Denied] is an entry that [stat] refuses
    to examine (a name listed in a directory that may be read but not
    searched).  [Device] is a node that is neither a regular file nor a
    directory and yet can be opened like a file (a character device, a
    FIFO), with the outcome of reading it. *)
Inductive node : Type :=
| File (content : option string)
| Dir (entries : list (string * node))
| Other
| Denied
| Device (content : option string).

(** [f.is_file()]: it answers [False] where there is nothing or something
    else than a regular file, and lets the error of a refused [stat]
    through. *)
Definition is_file (n : node) : run bool :=
  match n with
  | File _ => Done true
  | Denied => Raise OSError
  | _ => Done false
  end.

(** [f.read_text(errors='ignore')]: the text, or [Raise]. *)
Definition read_text (n : node) : run string :=
  match n with
  | File (Some txt) => Done txt
  | Device (Some txt) => Done txt
  | _ => Raise OSError
  end.

(** The node of a regular file that can be opened and holds the bytes
    [raw]: [read_text(errors='ignore')] decodes them, dropping what is
    malformed, and translates the line ends.  There is none when the
    bytes hold a character that the strings here do not have. *)
Definition file_holding (raw : list Byte.byte) : option node :=
  match Py.decode Py.ignore raw with
  | Py.Decoded s => Some (File (Some (Py.universal_newlines s)))
  | _ => None
  end.

(** [p.rglob('*')], each path already made relative to [p]: the entries
    of a directory, then the walk of each of its subdirectories.  [prefix]
    is the relative path of the directory, ending in the separator. *)
Fixpoint rglob (prefix : string) (n : node) : list (string * node) :=
  match n with
  | Dir entries =>
      map (fun '(nm, c) => ((prefix ++ nm)%string, c)) entries
      ++ flat_map (fun '(nm, c) => rglob (prefix ++ nm ++ "/")%string c)
           entries
  | _ => []
  end.

(** ** [read_files] *)

(** One iteration of [for f in p.rglob('*')]: the [if f.is_file()], which
    is outside the [try], and the [try] with its bare [except]. *)
Definition read_step (items : list (string * string)) (f : string * node)
    : run (list (string * string)) :=
  let '(rel, n) := f in
  regular <- is_file n ;;
  if regular then
    match read_text n with
    | Done txt => Done (items ++ [(rel, txt)])
    | _ => Done (items ++ [(rel, EmptyString)])
    end
  else Done items.

(** The [for] loop over the walk; [items] is the list being appended
    to. *)
Fixpoint read_all (walk : list (string * node))
    (items : list (string * string)) : run (list (string * string)) :=
  match walk with
  | [] => Done items
  | f :: rest =>
      items' <- read_step items f ;;
      read_all rest items'
  end.

(** [root] is the pair of [p.name] and what is found at [p]. *)
Definition read_files (root : string * node) : run (list (string * string)) :=
  let '(name, n) := root in
  regular <- is_file n ;;
  if regular then
    txt <- read_text n ;;
    Done [(name, txt)]
  else read_all (rglob EmptyString n) [].

(** ** Entries *)

Module Entry.

Record provenance : Type := mkMeta {
  repo : string;
  path : string;
  chunk : nat
}.

(** A dictionary of [main]; [embedding] is absent until it is assigned. *)
Record t (V : Type) : Type := mk {
  id : string;
  text : string;
  meta : provenance;
  embedding : option V
}.

Arguments mk {V} _ _ _ _.
Arguments id {V} _.
Arguments text {V} _.
Arguments meta {V} _.
Arguments embedding {V} _.

End Entry.

(** The f-string [f"{repo}::{fname}::chunk{i}"]. *)
Definition entry_id (repo fname : string) (i : nat) : string :=
  (repo ++ "::" ++ fname ++ "::chunk" ++ Py.str_of_nat i)%string.

(** [enumerate(l)], counting from [i]. *)
Fixpoint enumerate_from {A : Type} (i : nat) (l : list A) : list (nat * A) :=
  match l with
  | [] => []
  | x :: rest => (i, x) :: enumerate_from (S i) rest
  end.

Definition enumerate {A : Type} (l : list A) : list (nat * A) :=
  enumerate_from 0 l.

(** What [main] leaves behind: the files it dumped and the lines it
    printed. *)
Record effects (V : Type) : Type := mkEffects {
  written : list (string * list (Entry.t V));
  printed : list string
}.

Arguments mkEffects {V} _ _.
Arguments written {V} _.
Arguments printed {V} _.

Definition usage : string := "usage: embed_all_files.py <root> <out.json>".

Section Main.

(** The rows of [MODEL.encode(texts, convert_to_numpy=True)]. *)
Context {V : Type}.
Variable encode : list string -> list V.

(** How a command line argument resolves to [p.name] and the node
    at [p]. *)
Variable resolve : string -> string * node.

(** The body of the inner loop over [enumerate(chunk_text(txt or ""))]. *)
Definition new_entry (repo fname : string) (ich : nat * string)
    : Entry.t V :=
  let '(i, ch) := ich in
  Entry.mk (entry_id repo fname i) ch (Entry.mkMeta repo fname i) None.

Definition entries_of_file (fuel : nat) (repo : string)
    (item : string * string) : run (list (Entry.t V)) :=
  let '(fname, txt) := item in
  chunks <- chunk_text fuel (Py.or_else txt EmptyString)
              default_max_words default_overlap ;;
  Done (map (new_entry repo fname) (enumerate chunks)).

(** The outer loop [for fname, txt in read_files(root)]; [entries] is the
    list being appended to. *)
Fixpoint build_entries (fuel : nat) (repo : string)
    (items : list (string * string)) (entries : list (Entry.t V))
    : run (list (Entry.t V)) :=
  match items with
  | [] => Done entries
  | item :: rest =>
      es <- entries_of_file fuel repo item ;;
      build_entries fuel repo rest (entries ++ es)
  end.

Definition set_embedding (e : Entry.t V) (v : V) : Entry.t V :=
  Entry.mk (Entry.id e) (Entry.text e) (Entry.meta e) (Some v).

(** [for i, e in enumerate(entries): e["embedding"] = embs[i].tolist()]. *)
Fixpoint attach (embs : list V) (ies : list (nat * Entry.t V))
    : run (list (Entry.t V)) :=
  match ies with
  | [] => Done []
  | (i, e) :: rest =>
      v <- Py.index embs i ;;
      rest' <- attach embs rest ;;
      Done (set_embedding e v :: rest')
  end.

(** Everything between the argument handling and the dump. *)
Definition ingest (fuel : nat) (root repo : string)
    : run (list (Entry.t V)) :=
  items <- read_files (resolve root) ;;
  entries <- build_entries fuel repo items [] ;;
  attach (encode (map Entry.text entries)) (enumerate entries).

Definition report (entries : list (Entry.t V)) : string :=
  ("Wrote " ++ Py.str_of_nat (List.length entries) ++ " entries")%string.

(** [argv] is [sys.argv].  Opening and writing the output file is taken
    to succeed. *)
Definition main (fuel : nat) (argv : list string)
    : effects V * run unit :=
  match argv with
  | _ :: root :: out :: rest =>
      let repo := match rest with r :: _ => r | [] => "repo" end in
      match ingest fuel root repo with
      | Done entries =>
          (mkEffects [(out, entries)] [report entries], Done tt)
      | Raise e => (mkEffects [] [], Raise e)
      | Timeout => (mkEffects [] [], Timeout)
      end
  | _ => (mkEffects [] [usage], Raise (SystemExit 1))
  end.

End Main.

(** ** Notions the properties are stated with *)

(** The words a chunk list stands for once the overlap is removed: all
    words of the first chunk, and of every later chunk the words after its
    first [overlap] ones. *)
Definition deoverlap (overlap : nat) (chunks : list string) : list string :=
  match chunks with
  | [] => []
  | c :: rest =>
      Py.split c ++ flat_map (fun c' => skipn overlap (Py.split c')) rest
  end.

(** The same with the overlap removed at the other end: of every chunk
    but the last its first [step] words, and all words of the last. *)
Definition deoverlap_heads (step : nat) (chunks : list string)
    : list string :=
  match chunks with
  | [] => []
  | _ =>
      flat_map (fun c => firstn step (Py.split c)) (removelast chunks)
      ++ Py.split (last chunks EmptyString)
  end.

(** The window of [max_words] words that starts at word [k * step]. *)
Definition window (words : list string) (max_words step : Z) (k : nat)
    : list string :=
  Py.slice words (Z.of_nat k * step)%Z (Z.of_nat k * step + max_words)%Z.

(** The number of windows the loop produces over [w] words: the ceiling
    of [w / step]. *)
Definition window_count (w step : Z) : nat :=
  Z.to_nat ((w + step - 1) / step).

(** An entry and the same entry with some embedding assigned. *)
Definition embedded {V : Type} (e e' : Entry.t V) : Prop :=
  exists v, e' = set_embedding e v.

(** [len(text.split())]. *)
Definition word_count (text : string) : Z :=
  Z.of_nat (List.length (Py.split text)).

(** Every chunk but the last holds exactly [max_words] words. *)
Definition full_windows (max_words : Z) (chunks : list string) : Prop :=
  forall k, (S k < List.length chunks)%nat ->
    Z.of_nat (List.length (Py.split (nth k chunks EmptyString))) = max_words.

(** A walked path as a regular file with the outcome of reading it, if it
    is one. *)
Definition file_entry (f : string * node) : list (string * option string) :=
  let '(rel, n) := f in
  match n with
  | File content => [(rel, content)]
  | _ => []
  end.

(** The regular files of a walk, in walk order. *)
Definition regular_files (n : node) : list (string * option string) :=
  flat_map file_entry (rglob EmptyString n).

(** The regular files of a walk whose [read_text] raises. *)
Definition skipped_files (n : node) : list string :=
  flat_map (fun '(rel, content) =>
              match content with
              | None => [rel]
              | Some _ => []
              end) (regular_files n).

(** The text a file contributes: what was read, or nothing. *)
Definition text_or_empty (f : string * option string) : string * string :=
  let '(rel, content) := f in
  match content with
  | Some txt => (rel, txt)
  | None => (rel, EmptyString)
  end.

(** A string without whitespace, and a word: such a string that is not
    empty. *)
Fixpoint nospace (s : string) : bool :=
  match s with
  | EmptyString => true
  | String c s' => negb (Py.isspace c) && nospace s'
  end.

Definition is_word (w : string) : Prop :=
  w <> EmptyString /\ nospace w = true.

(** The number of iterations the loop still makes from index [i] over [w]
    words when it advances by [step]. *)
Definition remaining (w i step : Z) : nat :=
  Z.to_nat ((w - i + step - 1) / step).

(** A decimal digit. *)
Definition is_digit (c : ascii) : bool :=
  let n := N_of_ascii c in ((48 <=? n) && (n <=? 57))%N.

(** [sub in s]. *)
Fixpoint occurs (sub s : string) : bool :=
  String.prefix sub s ||
  match s with
  | EmptyString => false
  | String _ s' => occurs sub s'
  end.

(** A string without the character [x]. *)
Fixpoint char_free (x : ascii) (s : string) : bool :=
  match s with
  | EmptyString => true
  | String c s' => negb (Ascii.eqb c x) && char_free x s'
  end.

Definition colon_free (s : string) : bool := char_free ":" s.

(** A list of strings without repetition. *)
Fixpoint distinct (l : list string) : bool :=
  match l with
  | [] => true
  | x :: rest => negb (existsb (String.eqb x) rest) && distinct rest
  end.

(** A directory tree as a file system has it: the names in a directory
    are distinct and hold no path separator. *)
Fixpoint well_formed (n : node) : bool :=
  match n with
  | Dir entries =>
      distinct (map fst entries)
      && forallb (char_free "/") (map fst entries)
      && forallb (fun '(_, c) => well_formed c) entries
  | _ => true
  end.

(** A tree every entry of which [stat] examines. *)
Fixpoint accessible (n : node) : bool :=
  match n with
  | Denied => false
  | Dir entries => forallb (fun '(_, c) => accessible c) entries
  | _ => true
  end.

(** The entries of an ingestion that come from the file at [path]. *)
Definition entries_of_path {V : Type} (path : string)
    (entries : list (Entry.t V)) : list (Entry.t V) :=
  filter (fun e => String.eqb (Entry.path (Entry.meta e)) path) entries.

Definition sample_corpus : string * node :=
  ("corpus",
   Dir [("a.txt", File (Some "alpha beta"));
        ("sub", Dir [("b.bin", File None); ("c.txt", File (Some ""))]);
        ("pipe", Other)]).

(** A stand-in for the model: the length of each text. *)
Definition sample_encode (texts : list string) : list nat :=
  map String.length texts.

Definition sample_entries : list (Entry.t nat) :=
  [Entry.mk "repo::a.txt::chunk0" "alpha beta"
     (Entry.mkMeta "repo" "a.txt" 0) (Some 10%nat);
   Entry.mk "repo::sub/b.bin::chunk0" ""
     (Entry.mkMeta "repo" "sub/b.bin" 0) (Some 0%nat);
   Entry.mk "repo::sub/c.txt::chunk0" ""
     (Entry.mkMeta "repo" "sub/c.txt" 0) (Some 0%nat)].

(** The regular files of a tree, found by descending into it: a file of a
    directory under its name, a file of a subdirectory under the name of
    the subdirectory, the separator and its path below it. *)
Fixpoint tree_files (n : node) : list (string * option string) :=
  match n with
  | Dir entries =>
      flat_map
        (fun '(nm, c) =>
           match c with
           | File content => [(nm, content)]
           | _ =>
               map (fun '(p, content) => ((nm ++ "/" ++ p)%string, content))
                 (tree_files c)
           end)
        entries
  | _ => []
  end.

(** The number of chunks the default parameters cut a text into: one up
    to 600 words, and beyond that one per started 500 words. *)
Definition chunk_count (txt : string) : nat :=
  if (word_count txt <=? default_max_words)%Z then 1%nat
  else window_count (word_count txt) (default_max_words - default_overlap).

(** ** [embed_and_return2.py] *)

(** What the script leaves behind: the vector lists it dumped and the
    lines it printed. *)
Record vector_effects (V : Type) : Type := mkVectorEffects {
  dumped : list (string * list V);
  said : list string
}.

Arguments mkVectorEffects {V} _ _.
Arguments dumped {V} _.
Arguments said {V} _.

Definition usage_return : string :=
  "usage: embed_and_return.py <infile> <outfile>".

(** The whole script: the argument check, [Path(inp).read_text], the first
    row of [MODEL.encode([text])], the dump of the one-element list and
    the final [print("ok")].  Writing the output file is taken to
    succeed. *)
Definition embed_and_return {V : Type} (encode : list string -> list V)
    (resolve : string -> string * node) (argv : list string)
    : vector_effects V * run unit :=
  match argv with
  | _ :: inp :: out :: _ =>
      match (text <- read_text (snd (resolve inp)) ;;
             Py.index (encode [text]) 0) with
      | Done vec => (mkVectorEffects [(out, [vec])] ["ok"], Done tt)
      | Raise e => (mkVectorEffects [] [], Raise e)
      | Timeout => (mkVectorEffects [] [], Timeout)
      end
  | _ => (mkVectorEffects [] [usage_return], Raise (SystemExit 1))
  end.

(** A file of 1101 words, which the default parameters cut in three. *)
Definition big_text : string := Py.join " " (repeat "w" 1101).

Definition big_corpus : string * node :=
  ("corpus", Dir [("big.txt", File (Some big_text))]).

Definition big_entry (k : nat) (words : nat) : Entry.t nat :=
  Entry.mk (entry_id "repo" "big.txt" k) (Py.join " " (repeat "w" words))
    (Entry.mkMeta "repo" "big.txt" k)
    (Some (String.length (Py.join " " (repeat "w" words)))).

Definition big_entries : list (Entry.t nat) :=
  [big_entry 0 600; big_entry 1 600; big_entry 2 101].

Example split_example :
  Py.split "  one two
three  " = ["one"; "two"; "three"].
Proof. reflexivity. Qed.

Example chunk_example :
  chunk_text 10 "one two three four five" 2 1
  = Done ["one two"; "two three"; "three four"; "four five"; "five"].
Proof. reflexivity. Qed.

Example read_files_example :
  read_files sample_corpus
  = Done [("a.txt", "alpha beta"); ("sub/b.bin", ""); ("sub/c.txt", "")].
Proof. reflexivity. Qed.

Example main_example :
  main sample_encode (fun _ => sample_corpus) 5
       ["embed_all_files.py"; "corpus"; "out.json"]
  = (mkEffects [("out.json", sample_entries)] ["Wrote 3 entries"], Done tt).
Proof. reflexivity. Qed.

(** * Properties *)

(** ** Strings: [split] and [join] *)

Section SplitJoin.

Lemma append_nil_r (s : string) : (s ++ "")%string = s.
Proof. induction s as [|c s IH]; simpl; [reflexivity | now rewrite IH]. Qed.

Lemma append_assoc (a b c : string) :
  ((a ++ b) ++ c)%string = (a ++ (b ++ c))%string.
Proof. induction a as [|x a IH]; simpl; [reflexivity | now rewrite IH]. Qed.

Lemma nospace_app (a b : string) :
  nospace (a ++ b) = nospace a && nospace b.
Proof.
  induction a as [|c a IH]; simpl; [reflexivity|].
  rewrite IH. now rewrite andb_assoc.
Qed.

Lemma flush_word (w : string) : w <> "" -> Py.flush w = [w].
Proof. destruct w; [congruence | reflexivity]. Qed.

Lemma flush_is_word (cur : string) :
  nospace cur = true -> Forall is_word (Py.flush cur).
Proof.
  intros H. destruct cur as [|c cur]; simpl; constructor.
  - split; [discriminate | exact H].
  - constructor.
Qed.

(** Every word [split] returns is a non-empty run without whitespace. *)
Lemma split_from_words (s : string) :
  forall cur, nospace cur = true -> Forall is_word (Py.split_from cur s).
Proof.
  induction s as [|c s IH]; intros cur Hcur; simpl.
  - now apply flush_is_word.
  - destruct (Py.isspace c) eqn:Hc.
    + apply Forall_app. split; [now apply flush_is_word | now apply IH].
    + apply IH. rewrite nospace_app. simpl. now rewrite Hcur, Hc.
Qed.

Lemma split_words (s : string) : Forall is_word (Py.split s).
Proof. now apply split_from_words. Qed.

(** Scanning a run without whitespace only extends the current word. *)
Lemma split_from_run (w : string) :
  forall cur rest,
    nospace w = true ->
    Py.split_from cur (w ++ rest) = Py.split_from (cur ++ w) rest.
Proof.
  induction w as [|c w IH]; intros cur rest Hw; simpl in *.
  - now rewrite append_nil_r.
  - apply andb_prop in Hw as [Hc Hw].
    apply negb_true_iff in Hc. rewrite Hc.
    rewrite IH by exact Hw. now rewrite append_assoc.
Qed.

Lemma split_word (w : string) : is_word w -> Py.split w = [w].
Proof.
  intros [Hne Hw]. unfold Py.split.
  rewrite <- (append_nil_r w) at 1.
  rewrite split_from_run by exact Hw. simpl. now apply flush_word.
Qed.

(** Splitting a single-space join of words gives the words back. *)
Lemma split_join (ws : list string) :
  Forall is_word ws -> Py.split (Py.join " " ws) = ws.
Proof.
  induction ws as [|w ws IH]; intros Hws; [reflexivity|].
  inversion Hws as [|? ? Hw Hrest]; subst.
  destruct ws as [|w2 ws].
  - now apply split_word.
  - change (Py.join " " (w :: w2 :: ws))
      with (w ++ String " " (Py.join " " (w2 :: ws)))%string.
    unfold Py.split. destruct Hw as [Hne Hw].
    rewrite split_from_run by exact Hw. simpl.
    rewrite flush_word by exact Hne.
    simpl. f_equal. now apply IH.
Qed.

End SplitJoin.

(** ** Slices *)

Section Slices.

Context {A : Type}.

(** A slice whose bounds are not negative is a [firstn] of a [skipn]. *)
Lemma slice_nat (l : list A) (a m : nat) :
  Py.slice l (Z.of_nat a) (Z.of_nat a + Z.of_nat m) = firstn m (skipn a l).
Proof.
  unfold Py.slice, Py.adjust_index.
  destruct (Z.ltb_spec (Z.of_nat a) 0) as [H|_]; [lia|].
  destruct (Z.ltb_spec (Z.of_nat a + Z.of_nat m) 0) as [H|_]; [lia|].
  destruct (Nat.le_gt_cases (length l) a) as [Hge|Hlt].
  - rewrite (skipn_all2 l Hge).
    rewrite (Z.min_r (Z.of_nat a)) by lia. rewrite Nat2Z.id.
    rewrite skipn_all. now rewrite !firstn_nil.
  - rewrite (Z.min_l (Z.of_nat a)) by lia. rewrite Nat2Z.id.
    destruct (Nat.le_gt_cases (a + m) (length l)) as [Hin|Hout].
    + rewrite Z.min_l by lia. f_equal. lia.
    + rewrite Z.min_r by lia.
      rewrite !firstn_all2; [reflexivity | |]; rewrite length_skipn; lia.
Qed.

Lemma firstn_step (l : list A) (p m : nat) :
  firstn p l ++ firstn m (skipn p l) = firstn (p + m) l.
Proof.
  revert l. induction p as [|p IH]; intros l; [reflexivity|].
  destruct l as [|x l]; simpl.
  - now rewrite firstn_nil.
  - now rewrite IH.
Qed.

Lemma in_firstn_skipn (l : list A) (m a : nat) (x : A) :
  In x (firstn m (skipn a l)) -> In x l.
Proof.
  intros H.
  rewrite <- (firstn_skipn a l). apply in_or_app. right.
  rewrite <- (firstn_skipn m (skipn a l)). apply in_or_app. now left.
Qed.

End Slices.

(** ** The loop of [chunk_text] *)

Section Loop.

Variable words : list string.
Variables max_words overlap : Z.

Let w : Z := Z.of_nat (length words).
Let step : Z := (max_words - overlap)%Z.

Hypothesis step_pos : (0 < step)%Z.

Lemma remaining_done (i : Z) : (w <= i)%Z -> remaining w i step = 0%nat.
Proof.
  intros H. unfold remaining.
  assert ((w - i + step - 1) / step <= 0)%Z; [|lia].
  destruct (Z.eq_dec (w - i + step - 1) (step - 1)) as [E|N].
  - rewrite E. rewrite Z.div_small; lia.
  - assert ((w - i + step - 1) / step < 1)%Z; [|lia].
    apply Z.div_lt_upper_bound; lia.
Qed.

Lemma remaining_next (i : Z) :
  (i < w)%Z -> remaining w i step = S (remaining w (i + step) step).
Proof.
  intros H. unfold remaining.
  replace (w - i + step - 1)%Z with ((w - (i + step) + step - 1) + 1 * step)%Z
    by lia.
  rewrite Z.div_add by lia.
  rewrite Z2Nat.inj_add; [lia | apply Z.div_pos; lia | lia].
Qed.

(** With a positive step and enough fuel the loop returns, having
    appended one joined slice per remaining window start. *)
Lemma chunk_loop_returns (fuel : nat) :
  forall i chunks,
    (remaining w i step < fuel)%nat ->
    chunk_loop fuel words max_words overlap i chunks
    = Done (chunks ++
            map (fun k =>
                   Py.join " "
                     (Py.slice words (i + Z.of_nat k * step)
                        (i + Z.of_nat k * step + max_words)))
                (seq 0 (remaining w i step))).
Proof.
  induction fuel as [|fuel IH]; intros i chunks Hfuel; [lia|].
  simpl. fold w. fold step.
  destruct (Z.ltb_spec i w) as [Hlt|Hge].
  - rewrite (remaining_next i Hlt) in *.
    rewrite IH by lia.
    rewrite <- List.app_assoc. f_equal. f_equal.
    simpl. rewrite Z.add_0_r. f_equal.
    rewrite <- seq_shift, map_map.
    apply map_ext. intros k. f_equal. f_equal; lia.
  - rewrite (remaining_done i Hge). simpl. now rewrite List.app_nil_r.
Qed.

End Loop.

(** ** Windows *)

Section Windows.

Variable words : list string.
Variables max_words overlap : Z.

Let w : Z := Z.of_nat (length words).
Let step : Z := (max_words - overlap)%Z.

Hypothesis overlap_ok : (0 <= overlap < max_words)%Z.

(** Window [k] in list terms. *)
Lemma window_nat (k : nat) :
  window words max_words step k
  = firstn (Z.to_nat max_words) (skipn (k * Z.to_nat step) words).
Proof.
  unfold window.
  replace (Z.of_nat k * step)%Z with (Z.of_nat (k * Z.to_nat step))
    by (subst step; nia).
  rewrite <- (Z2Nat.id max_words) at 1 by lia.
  apply slice_nat.
Qed.

Lemma window_length (k : nat) :
  Z.of_nat (length (window words max_words step k))
  = Z.max 0 (Z.min max_words (w - Z.of_nat k * step)).
Proof.
  rewrite window_nat, length_firstn, length_skipn.
  subst w step. nia.
Qed.

Lemma window_words (k : nat) :
  Forall is_word words -> Forall is_word (window words max_words step k).
Proof.
  intros H. rewrite window_nat.
  apply Forall_forall. intros x Hx.
  apply (proj1 (Forall_forall _ _) H).
  eapply in_firstn_skipn. exact Hx.
Qed.

(** [window_count] is the ceiling of [w / step]. *)
Lemma window_count_ceiling :
  ((Z.of_nat (window_count w step) - 1) * step < w
   <= Z.of_nat (window_count w step) * step)%Z \/
  (w = 0%Z /\ window_count w step = 0%nat).
Proof.
  unfold window_count.
  assert (Hs : (0 < step)%Z) by (subst step; lia).
  assert (Hw : (0 <= w)%Z) by (subst w; lia).
  destruct (Z.eq_dec w 0) as [E|N].
  - right. split; [exact E|]. rewrite E. simpl.
    rewrite Z.div_small; [reflexivity | lia].
  - left.
    pose proof (Z.div_mod (w + step - 1) step ltac:(lia)) as Hdm.
    pose proof (Z.mod_pos_bound (w + step - 1) step Hs) as Hb.
    assert (0 <= (w + step - 1) / step)%Z by (apply Z.div_pos; lia).
    rewrite Z2Nat.id by assumption. nia.
Qed.

Lemma window_count_le : (window_count w step <= length words)%nat.
Proof.
  unfold window_count.
  assert (Hs : (0 < step)%Z) by (subst step; lia).
  assert ((w + step - 1) / step <= w)%Z; [|subst w; lia].
  destruct (Z.eq_dec w 0) as [E|N].
  - rewrite E. simpl. rewrite Z.div_small; lia.
  - assert ((w + step - 1) / step < w + 1)%Z; [|lia].
    apply Z.div_lt_upper_bound; [lia|]. subst w. nia.
Qed.

(** Removing the overlap from the first [m + 1] windows leaves a prefix
    of the words. *)
Lemma deoverlap_windows (m : nat) :
  firstn (Z.to_nat max_words) words
  ++ flat_map (fun k => skipn (Z.to_nat overlap)
                          (window words max_words step k)) (seq 1 m)
  = firstn (m * Z.to_nat step + Z.to_nat max_words) words.
Proof.
  induction m as [|m IH]; [simpl; now rewrite List.app_nil_r|].
  rewrite seq_S, flat_map_app, List.app_assoc, IH. simpl.
  rewrite List.app_nil_r, window_nat.
  replace (Z.to_nat max_words)
    with (Z.to_nat overlap + Z.to_nat step)%nat at 2 by (subst step; lia).
  rewrite <- firstn_skipn_comm, skipn_skipn.
  replace (Z.to_nat overlap + S m * Z.to_nat step)%nat
    with (m * Z.to_nat step + Z.to_nat max_words)%nat by (subst step; lia).
  rewrite firstn_step. f_equal. lia.
Qed.

(** The first [step] words of the first [m] windows are a prefix of the
    words. *)
Lemma window_heads (m : nat) :
  flat_map (fun k => firstn (Z.to_nat step) (window words max_words step k))
    (seq 0 m)
  = firstn (m * Z.to_nat step) words.
Proof.
  induction m as [|m IH]; [reflexivity|].
  rewrite seq_S, flat_map_app, IH. simpl.
  rewrite List.app_nil_r, window_nat, firstn_firstn.
  rewrite Nat.min_l by (subst step; lia).
  rewrite firstn_step. f_equal. lia.
Qed.

End Windows.

(** ** [chunk_text] *)

Section Chunker.

(** The loop never raises: it returns or it is still running. *)
Lemma chunk_loop_no_raise (fuel : nat) :
  forall words max_words overlap i chunks e,
    chunk_loop fuel words max_words overlap i chunks <> Raise e.
Proof.
  induction fuel as [|fuel IH]; intros words mw ov i chunks e; simpl.
  - discriminate.
  - destruct (i <? Z.of_nat (length words))%Z; [apply IH | discriminate].
Qed.

Lemma chunk_text_no_raise (fuel : nat) (text : string)
    (max_words overlap : Z) (e : exn) :
  chunk_text fuel text max_words overlap <> Raise e.
Proof.
  unfold chunk_text.
  destruct (Z.of_nat (length (Py.split text)) <=? max_words)%Z;
    [discriminate | apply chunk_loop_no_raise].
Qed.

(** The single-chunk shortcut, whatever the fuel and the overlap. *)
Lemma chunk_text_short (fuel : nat) (text : string) (max_words overlap : Z) :
  (Z.of_nat (length (Py.split text)) <= max_words)%Z ->
  chunk_text fuel text max_words overlap = Done [text].
Proof.
  intros H. unfold chunk_text.
  destruct (Z.leb_spec (Z.of_nat (length (Py.split text))) max_words);
    [reflexivity | lia].
Qed.

(** Past the shortcut, with a positive step: one joined window per
    multiple of the step below the word count. *)
Lemma chunk_text_long (fuel : nat) (text : string) (max_words overlap : Z) :
  let words := Py.split text in
  let w := Z.of_nat (length words) in
  let step := (max_words - overlap)%Z in
  (0 < step)%Z ->
  (max_words < w)%Z ->
  (window_count w step < fuel)%nat ->
  chunk_text fuel text max_words overlap
  = Done (map (fun k => Py.join " " (window words max_words step k))
            (seq 0 (window_count w step))).
Proof.
  intros words w step Hs Hw Hfuel. unfold chunk_text.
  fold words. fold w.
  destruct (Z.leb_spec w max_words) as [Hle|_]; [lia|].
  assert (E : remaining w 0 step = window_count w step).
  { unfold remaining, window_count. now rewrite Z.sub_0_r. }
  rewrite chunk_loop_returns; [| exact Hs | fold w step; lia].
  fold w step. rewrite E. reflexivity.
Qed.

(** Past the shortcut, with a step that is not positive, the loop is
    still running whatever fuel it is given. *)
Lemma chunk_loop_stuck (fuel : nat) :
  forall words max_words overlap i chunks,
    (max_words - overlap <= 0)%Z ->
    (i < Z.of_nat (length words))%Z ->
    chunk_loop fuel words max_words overlap i chunks = Timeout.
Proof.
  induction fuel as [|fuel IH]; intros words mw ov i chunks Hs Hi;
    [reflexivity|].
  simpl. destruct (Z.ltb_spec i (Z.of_nat (length words))); [|lia].
  apply IH; lia.
Qed.

Lemma chunk_text_nonpositive_step_diverges (fuel : nat) (text : string)
    (max_words overlap : Z) :
  (max_words <= overlap)%Z ->
  (max_words < Z.of_nat (length (Py.split text)))%Z ->
  Py.split text <> [] ->
  chunk_text fuel text max_words overlap = Timeout.
Proof.
  intros Hs Hw Hne. unfold chunk_text.
  destruct (Z.leb_spec (Z.of_nat (length (Py.split text))) max_words);
    [lia|].
  apply chunk_loop_stuck; [lia|].
  destruct (Py.split text); [congruence | simpl; lia].
Qed.

End Chunker.

Section ChunkLists.

Lemma nth_map_seq (f : nat -> string) (n k : nat) :
  (k < n)%nat -> nth k (map f (seq 0 n)) "" = f k.
Proof.
  intros H.
  rewrite (nth_indep _ "" (f 0%nat)) by (now rewrite length_map, length_seq).
  rewrite map_nth, seq_nth by exact H. reflexivity.
Qed.

Lemma flat_map_map {A B C : Type} (f : A -> B) (g : B -> list C)
    (l : list A) :
  flat_map g (map f l) = flat_map (fun x => g (f x)) l.
Proof. induction l as [|x l IH]; simpl; [reflexivity | now rewrite IH]. Qed.

Variable text : string.
Variables max_words overlap : Z.
Hypothesis overlap_ok : (0 <= overlap < max_words)%Z.

Let words := Py.split text.
Let step := (max_words - overlap)%Z.
Let n := window_count (word_count text) step.

Let chunk_of (k : nat) : string :=
  Py.join " " (window words max_words step k).

Lemma split_chunk_of (k : nat) :
  Py.split (chunk_of k) = window words max_words step k.
Proof.
  apply split_join. apply window_words; [exact overlap_ok|].
  apply split_words.
Qed.

Lemma count_bounds :
  (0 < word_count text)%Z ->
  ((Z.of_nat n - 1) * step < word_count text <= Z.of_nat n * step)%Z.
Proof.
  intros Hpos.
  destruct (window_count_ceiling words max_words overlap overlap_ok)
    as [H|[H _]]; [exact H|].
  unfold word_count in Hpos. fold words in Hpos. lia.
Qed.

(** The de-overlapped windows are the words. *)
Lemma deoverlap_chunks :
  (0 < word_count text)%Z ->
  deoverlap (Z.to_nat overlap) (map chunk_of (seq 0 n)) = words.
Proof.
  intros Hpos. pose proof (count_bounds Hpos) as Hn.
  assert (Hs : (0 < step)%Z) by (subst step; lia).
  destruct n as [|m] eqn:En; [lia|].
  cbn [seq map deoverlap].
  rewrite <- seq_shift, map_map, flat_map_map.
  rewrite split_chunk_of.
  rewrite (flat_map_ext _
             (fun k => skipn (Z.to_nat overlap)
                         (window words max_words step (S k))))
    by (intros k; now rewrite split_chunk_of).
  rewrite <- (flat_map_map S
                (fun k => skipn (Z.to_nat overlap)
                            (window words max_words step k))).
  rewrite seq_shift. unfold step in *.
  rewrite (window_nat words max_words overlap overlap_ok 0). simpl skipn.
  rewrite (deoverlap_windows words max_words overlap overlap_ok m).
  apply firstn_all2.
  unfold word_count in Hn. fold words in Hn.
  apply Nat2Z.inj_le.
  rewrite Nat2Z.inj_add, Nat2Z.inj_mul, !Z2Nat.id by lia. nia.
Qed.

Lemma deoverlap_heads_snoc (st : nat) (l : list string) (c : string) :
  deoverlap_heads st (l ++ [c])
  = flat_map (fun c' => firstn st (Py.split c')) l ++ Py.split c.
Proof.
  unfold deoverlap_heads.
  destruct (l ++ [c]) eqn:E; [now destruct l|].
  rewrite <- E. now rewrite removelast_last, last_last.
Qed.

Lemma deoverlap_heads_chunks :
  (0 < word_count text)%Z ->
  deoverlap_heads (Z.to_nat step) (map chunk_of (seq 0 n)) = words.
Proof.
  intros Hpos. pose proof (count_bounds Hpos) as Hn.
  assert (Hs : (0 < step)%Z) by (subst step; lia).
  destruct n as [|m] eqn:En; [lia|].
  rewrite seq_S, map_app. simpl map.
  rewrite deoverlap_heads_snoc, flat_map_map, split_chunk_of.
  rewrite (flat_map_ext _
             (fun k => firstn (Z.to_nat step)
                         (window words max_words step k)))
    by (intros k; now rewrite split_chunk_of).
  unfold step in *.
  rewrite (window_heads words max_words overlap overlap_ok m).
  rewrite (window_nat words max_words overlap overlap_ok).
  rewrite (firstn_all2 (n := Z.to_nat max_words)).
  - apply firstn_skipn.
  - rewrite length_skipn.
    unfold word_count in Hn. fold words in Hn.
    apply Nat2Z.inj_le. rewrite Nat2Z.inj_sub_max, Nat2Z.inj_mul.
    rewrite !Z2Nat.id by lia. simpl Nat.add. nia.
Qed.

End ChunkLists.

(** ** What the chunker returns *)

(** C1 (as stated, refuted): for no amount of fuel does
    [chunk("one two three four five", max_words=2, overlap=1)] return the
    four chunks "one two", "two three", "three four", "four five". *)
Lemma chunk_example_four_chunks_counterexample :
  ~ exists fuel,
      chunk_text fuel "one two three four five" 2 1
      = Done ["one two"; "two three"; "three four"; "four five"].
Proof.
  intros [fuel H].
  do 6 (destruct fuel as [|fuel]; [cbv in H; discriminate H|]).
  cbv in H. discriminate H.
Qed.

(** C1 (amended): [chunk("one two three four five", max_words=2,
    overlap=1)] returns, once the loop is given its six iterations of
    fuel, exactly five chunks: the four overlapping pairs and then "five",
    the window that starts at the last word. *)
Theorem chunk_example_five_chunks (fuel : nat) :
  (5 < fuel)%nat ->
  chunk_text fuel "one two three four five" 2 1
  = Done ["one two"; "two three"; "three four"; "four five"; "five"].
Proof.
  intros H.
  do 6 (destruct fuel as [|fuel]; [lia|]).
  reflexivity.
Qed.

Lemma chunk_example_five_chunks_witness :
  (5 < 6)%nat /\
  chunk_text 6 "one two three four five" 2 1
  = Done ["one two"; "two three"; "three four"; "four five"; "five"].
Proof.
  split; [lia | apply (chunk_example_five_chunks 6); lia].
Defined.

(** C2 (as stated, refuted): with [max_words=5, overlap=5] a three-word
    text is returned as one chunk; nothing fails. *)
Lemma chunk_misconfigured_counterexample :
  (5 >= 5)%Z /\
  chunk_text 1 "one two three" 5 5 = Done ["one two three"].
Proof. split; [lia | reflexivity]. Qed.

(** C2 (amended): [chunk_text] does not validate its parameters.  With
    [overlap >= max_words] it raises nothing, and a text of at most
    [max_words] words is returned whole as a single chunk. *)
Theorem chunk_misconfigured_short_text (fuel : nat) (text : string)
    (max_words overlap : Z) :
  (overlap >= max_words)%Z ->
  (forall e, chunk_text fuel text max_words overlap <> Raise e) /\
  ((word_count text <= max_words)%Z ->
   chunk_text fuel text max_words overlap = Done [text]).
Proof.
  intros _. split.
  - intros e. apply chunk_text_no_raise.
  - apply chunk_text_short.
Qed.

Lemma chunk_misconfigured_short_text_witness :
  (5 >= 5)%Z /\
  (forall e, chunk_text 0 "one two three" 5 5 <> Raise e) /\
  chunk_text 0 "one two three" 5 5 = Done ["one two three"].
Proof.
  assert (H : (5 >= 5)%Z) by lia.
  split; [exact H|]. split.
  - exact (proj1 (chunk_misconfigured_short_text 0 "one two three" 5 5 H)).
  - apply (proj2 (chunk_misconfigured_short_text 0 "one two three" 5 5 H)).
    vm_compute. discriminate.
Defined.

(** C4: a text of at most [max_words] whitespace-separated words is
    returned as exactly one chunk, the text itself; so the empty text
    gives the single empty chunk. *)
Theorem chunk_single_chunk (fuel : nat) (text : string)
    (max_words overlap : Z) :
  (word_count text <= max_words)%Z ->
  chunk_text fuel text max_words overlap = Done [text] /\
  (text = "" -> chunk_text fuel "" max_words overlap = Done [""]).
Proof.
  intros H. split.
  - now apply chunk_text_short.
  - intros E. subst text. now apply chunk_text_short.
Qed.

Lemma chunk_single_chunk_witness :
  (word_count "" <= default_max_words)%Z /\
  chunk_text 0 "" default_max_words default_overlap = Done [""].
Proof.
  assert (H : (word_count "" <= default_max_words)%Z)
    by (vm_compute; discriminate).
  split; [exact H|].
  exact (proj1 (chunk_single_chunk 0 "" default_max_words default_overlap H)).
Defined.

(** C10: a text of more than [max_words] words, chunked with
    [0 <= overlap < max_words] and [step = max_words - overlap], gives
    exactly [ceil(W / step)] chunks once the loop has fuel for them; chunk
    [k] is the single-space join of the window of words starting at
    [k * step] (so splitting it gives that window back, whatever the
    whitespace of the text was); and when the window before the last one
    already reaches the end of the words, the last window is what remains
    of it after its first [step] words. *)
Theorem chunk_long_text_windows (text : string) (max_words overlap : Z) :
  (0 <= overlap < max_words)%Z ->
  (max_words < word_count text)%Z ->
  exists chunks,
    (forall fuel,
        (window_count (word_count text) (max_words - overlap) < fuel)%nat ->
        chunk_text fuel text max_words overlap = Done chunks) /\
    length chunks = window_count (word_count text) (max_words - overlap) /\
    ((Z.of_nat (length chunks) - 1) * (max_words - overlap) < word_count text
     <= Z.of_nat (length chunks) * (max_words - overlap))%Z /\
    (forall k, (k < length chunks)%nat ->
        nth k chunks ""
        = Py.join " "
            (window (Py.split text) max_words (max_words - overlap) k) /\
        Py.split (nth k chunks "")
        = window (Py.split text) max_words (max_words - overlap) k) /\
    ((word_count text
      <= (Z.of_nat (length chunks) - 2) * (max_words - overlap)
         + max_words)%Z ->
     window (Py.split text) max_words (max_words - overlap) (length chunks - 1)
     = skipn (Z.to_nat (max_words - overlap))
         (window (Py.split text) max_words (max_words - overlap)
            (length chunks - 2))).
Proof.
  intros Hov Hlong.
  set (step := (max_words - overlap)%Z).
  set (n := window_count (word_count text) step).
  set (words := Py.split text).
  assert (Hs : (0 < step)%Z) by (subst step; lia).
  assert (Hn : ((Z.of_nat n - 1) * step < word_count text
                <= Z.of_nat n * step)%Z)
    by (apply count_bounds; lia).
  exists (map (fun k => Py.join " " (window words max_words step k))
            (seq 0 n)).
  rewrite length_map, length_seq.
  split; [|split; [reflexivity|split; [exact Hn|split]]].
  - intros fuel Hfuel. now apply chunk_text_long.
  - intros k Hk. rewrite nth_map_seq by exact Hk.
    split; [reflexivity|]. now apply split_chunk_of.
  - intros Hend. subst step.
    rewrite !(window_nat words max_words overlap Hov).
    assert (Hw : word_count text = Z.of_nat (length words)) by reflexivity.
    assert (H2 : (2 <= n)%nat) by nia.
    rewrite (firstn_all2 (n := Z.to_nat max_words)
               (skipn ((n - 2) * Z.to_nat (max_words - overlap)) words)).
    + rewrite skipn_skipn.
      replace (Z.to_nat (max_words - overlap)
               + (n - 2) * Z.to_nat (max_words - overlap))%nat
        with ((n - 1) * Z.to_nat (max_words - overlap))%nat by nia.
      apply firstn_all2. rewrite length_skipn.
      apply Nat2Z.inj_le. rewrite Nat2Z.inj_sub_max, Nat2Z.inj_mul.
      rewrite !Z2Nat.id by lia. rewrite Nat2Z.inj_sub by lia. nia.
    + rewrite length_skipn.
      apply Nat2Z.inj_le. rewrite Nat2Z.inj_sub_max, Nat2Z.inj_mul.
      rewrite !Z2Nat.id by lia. rewrite Nat2Z.inj_sub by lia. nia.
Qed.

Lemma chunk_long_text_windows_witness :
  exists chunks,
    chunk_text 6 "one  two three
four five" 2 1 = Done chunks /\
    length chunks = 5%nat /\
    nth 0 chunks "" = "one two" /\
    nth 4 chunks "" = "five" /\
    window (Py.split "one  two three
four five") 2 1 4
    = skipn 1 (window (Py.split "one  two three
four five") 2 1 3).
Proof.
  assert (Hov : (0 <= 1 < 2)%Z) by lia.
  assert (Hlong : (2 < word_count "one  two three
four five")%Z) by (vm_compute; reflexivity).
  destruct (chunk_long_text_windows "one  two three
four five" 2 1 Hov Hlong) as (chunks & Hrun & Hlen & _ & Hk & Hlast).
  change (length chunks = 5%nat) in Hlen.
  exists chunks. rewrite Hlen in *.
  split; [apply Hrun; vm_compute; lia|].
  split; [reflexivity|].
  split; [exact (proj1 (Hk 0%nat ltac:(lia)))|].
  split; [exact (proj1 (Hk 4%nat ltac:(lia)))|].
  apply Hlast. vm_compute. discriminate.
Defined.

(** C3 (as stated, refuted): with [max_words=3, overlap=2] the text
    "a b c d" gives four chunks, and the third, which is not the final
    one, holds two words, not three. *)
Lemma chunk_full_windows_counterexample :
  (0 <= 2 < 3)%Z /\
  chunk_text 5 "a b c d" 3 2 = Done ["a b c"; "b c d"; "c d"; "d"] /\
  ~ full_windows 3 ["a b c"; "b c d"; "c d"; "d"].
Proof.
  split; [lia|]. split; [reflexivity|].
  intros H. specialize (H 2%nat ltac:(simpl; lia)).
  vm_compute in H. discriminate H.
Qed.

(** C3 (amended): with [0 <= overlap < max_words] and
    [step = max_words - overlap], [chunk_text] returns (given fuel beyond
    the word count) chunks whose words are the windows
    [words[k*step : k*step + max_words]], each clipped at the end of the
    word sequence, so that chunk [k] holds [min(max_words, W - k*step)]
    words and every window that starts within the last [max_words - 1]
    words is shorter than [max_words], not only the final one; and the
    chunks with their overlap removed are the words of the text, each
    once and in order, whether the overlap is dropped from the front of
    every later chunk (its first [overlap] words) or from the back of
    every earlier one (all but its first [step] words). *)
Theorem chunk_windows_cover (text : string) (max_words overlap : Z) :
  (0 <= overlap < max_words)%Z ->
  exists chunks,
    (forall fuel,
        (length (Py.split text) < fuel)%nat ->
        chunk_text fuel text max_words overlap = Done chunks) /\
    (forall k, (k < length chunks)%nat ->
        Py.split (nth k chunks "")
        = window (Py.split text) max_words (max_words - overlap) k /\
        Z.of_nat (length (Py.split (nth k chunks "")))
        = Z.min max_words
            (word_count text - Z.of_nat k * (max_words - overlap))) /\
    deoverlap (Z.to_nat overlap) chunks = Py.split text /\
    deoverlap_heads (Z.to_nat (max_words - overlap)) chunks = Py.split text.
Proof.
  intros Hov.
  set (step := (max_words - overlap)%Z).
  set (words := Py.split text).
  assert (Hw : word_count text = Z.of_nat (length words)) by reflexivity.
  destruct (Z.le_gt_cases (word_count text) max_words) as [Hshort|Hlong].
  - exists [text]. split; [|split; [|split]].
    + intros fuel _. now apply chunk_text_short.
    + intros k Hk. simpl in Hk. assert (k = 0%nat) by lia. subst k.
      simpl nth. fold words.
      assert (E : window words max_words step 0 = words).
      { subst step. rewrite (window_nat words max_words overlap Hov).
        simpl. apply firstn_all2. lia. }
      rewrite E. split; [reflexivity|]. lia.
    + simpl. now rewrite List.app_nil_r.
    + reflexivity.
  - set (n := window_count (word_count text) step).
    assert (Hn : ((Z.of_nat n - 1) * step < word_count text
                  <= Z.of_nat n * step)%Z)
      by (apply count_bounds; lia).
    exists (map (fun k => Py.join " " (window words max_words step k))
              (seq 0 n)).
    rewrite length_map, length_seq.
    split; [|split; [|split]].
    + intros fuel Hfuel.
      apply chunk_text_long; [subst step; lia | exact Hlong |].
      pose proof (window_count_le words max_words overlap Hov) as Hle.
      fold words in Hfuel. unfold word_count. fold words. lia.
    + intros k Hk. rewrite nth_map_seq by exact Hk.
      rewrite (split_chunk_of text max_words overlap Hov).
      split; [reflexivity|]. fold words. fold step.
      subst step. rewrite (window_length words max_words overlap Hov).
      rewrite <- Hw. nia.
    + apply (deoverlap_chunks text max_words overlap Hov). lia.
    + apply (deoverlap_heads_chunks text max_words overlap Hov). lia.
Qed.

Lemma chunk_windows_cover_witness :
  exists chunks,
    chunk_text 5 "a b c d" 3 2 = Done chunks /\
    Py.split (nth 2 chunks "") = ["c"; "d"] /\
    deoverlap 2 chunks = ["a"; "b"; "c"; "d"] /\
    deoverlap_heads 1 chunks = ["a"; "b"; "c"; "d"].
Proof.
  assert (Hov : (0 <= 2 < 3)%Z) by lia.
  destruct (chunk_windows_cover "a b c d" 3 2 Hov)
    as (chunks & Hrun & Hk & Hcover & Hheads).
  assert (Hrun5 : chunk_text 5 "a b c d" 3 2 = Done chunks)
    by (apply Hrun; vm_compute; lia).
  exists chunks. split; [exact Hrun5|].
  assert (Hlen : (2 < length chunks)%nat).
  { vm_compute in Hrun5. injection Hrun5 as <-. simpl. lia. }
  split; [exact (proj1 (Hk 2%nat Hlen))|].
  split; [exact Hcover | exact Hheads].
Defined.

(** ** [read_files] *)

Section Reader.

(** The loop over the walk, when it returns, has appended for each
    regular file and in walk order its path with its text or with the
    empty string. *)
Lemma read_all_inv (l : list (string * node)) :
  forall items result,
    read_all l items = Done result ->
    result = items ++ map text_or_empty (flat_map file_entry l).
Proof.
  induction l as [|[rel n] l IH]; intros items result H; simpl in H.
  - injection H as <-. simpl. now rewrite List.app_nil_r.
  - destruct n as [[txt|]|es| | |content]; simpl in H;
      try discriminate H; apply IH in H; subst result; simpl;
      now rewrite <- ?List.app_assoc.
Qed.

(** It returns when [is_file] raises for no entry of the walk. *)
Lemma read_all_done (l : list (string * node)) :
  Forall (fun f => snd f <> Denied) l ->
  forall items,
    read_all l items
    = Done (items ++ map text_or_empty (flat_map file_entry l)).
Proof.
  induction 1 as [|[rel n] l Hn _ IH]; intros items; simpl.
  - now rewrite List.app_nil_r.
  - destruct n as [[txt|]|es| | |content]; simpl in *;
      try congruence; rewrite IH; now rewrite <- ?List.app_assoc.
Qed.

Lemma read_files_directory_done (name : string)
    (entries : list (string * node)) (items : list (string * string)) :
  read_files (name, Dir entries) = Done items ->
  items = map text_or_empty (regular_files (Dir entries)).
Proof. unfold read_files. cbn [is_file bind]. apply read_all_inv. Qed.

Lemma read_files_directory (name : string) (entries : list (string * node)) :
  Forall (fun f => snd f <> Denied) (rglob "" (Dir entries)) ->
  read_files (name, Dir entries)
  = Done (map text_or_empty (regular_files (Dir entries))).
Proof.
  intros H. unfold read_files. cbn [is_file bind].
  now rewrite read_all_done.
Qed.

Lemma read_files_single_file (name txt : string) :
  read_files (name, File (Some txt)) = Done [(name, txt)].
Proof. reflexivity. Qed.

End Reader.

(** C8 (the code at the failing input): when the root is a single regular
    file whose read raises, [read_files] raises as well and returns no
    pair, whereas under a directory the same file gives its path with the
    empty text. *)
Theorem read_files_single_unreadable_file (name : string) :
  read_files (name, File None) = Raise OSError /\
  (forall items, read_files (name, File None) <> Done items) /\
  read_files ("", Dir [(name, File None)]) = Done [(name, "")].
Proof.
  split; [reflexivity|]. split; [discriminate|].
  reflexivity.
Qed.

(** ** Identifiers *)

Section Identifiers.

Lemma chars_app (a b : string) :
  list_ascii_of_string (a ++ b)
  = list_ascii_of_string a ++ list_ascii_of_string b.
Proof. induction a as [|c a IH]; simpl; [reflexivity | now rewrite IH]. Qed.

Lemma chars_inj (a b : string) :
  list_ascii_of_string a = list_ascii_of_string b -> a = b.
Proof.
  intros H.
  rewrite <- (string_of_list_ascii_of_string a),
          <- (string_of_list_ascii_of_string b).
  now rewrite H.
Qed.

(** A list is cut in one way only at its first element outside [D]. *)
Lemma first_outside {A : Type} (D : A -> Prop) (l1 : list A) :
  forall l2 x y r1 r2,
    Forall D l1 -> Forall D l2 -> ~ D x -> ~ D y ->
    l1 ++ x :: r1 = l2 ++ y :: r2 ->
    l1 = l2 /\ x = y /\ r1 = r2.
Proof.
  induction l1 as [|a l1 IH]; intros l2 x y r1 r2 H1 H2 Hx Hy E.
  - destruct l2 as [|b l2]; simpl in E.
    + injection E as -> ->. now repeat split.
    + injection E as -> _. inversion H2; subst. contradiction.
  - destruct l2 as [|b l2]; simpl in E.
    + injection E as -> _. inversion H1; subst. contradiction.
    + injection E as -> E. inversion H1; inversion H2; subst.
      destruct (IH l2 x y r1 r2) as (-> & -> & ->); auto.
Qed.

Lemma digits_of_uint (d : Decimal.uint) :
  Forall (fun c => is_digit c = true)
    (list_ascii_of_string (NilEmpty.string_of_uint d)).
Proof. induction d; simpl; constructor; (reflexivity || assumption). Qed.

Lemma str_of_nat_inj (i j : nat) :
  Py.str_of_nat i = Py.str_of_nat j -> i = j.
Proof.
  unfold Py.str_of_nat. intros H.
  apply DecimalNat.Unsigned.to_uint_inj.
  assert (E : Some (Nat.to_uint i) = Some (Nat.to_uint j))
    by (rewrite <- !NilEmpty.usu; now rewrite H).
  now injection E.
Qed.

(** The tail [path ++ "::chunk" ++ str(i)] of an identifier determines
    the path and the index: the numeral is the final run of digits. *)
Lemma path_chunk_inj (p1 p2 : string) (i1 i2 : nat) :
  (p1 ++ "::chunk" ++ Py.str_of_nat i1)%string
  = (p2 ++ "::chunk" ++ Py.str_of_nat i2)%string ->
  p1 = p2 /\ i1 = i2.
Proof.
  intros E. apply (f_equal list_ascii_of_string) in E.
  rewrite !chars_app in E. apply (f_equal (@rev ascii)) in E.
  rewrite !rev_app_distr in E.
  change (rev (list_ascii_of_string "::chunk"))
    with ("k"%char :: rev (list_ascii_of_string "::chun")) in E.
  rewrite <- !List.app_assoc in E. simpl app in E.
  apply (first_outside (fun c => is_digit c = true)) in E.
  - destruct E as (Hd & _ & Hp).
    apply (f_equal (@rev ascii)) in Hd. rewrite !rev_involutive in Hd.
    apply chars_inj, str_of_nat_inj in Hd.
    injection Hp as Hp.
    apply (f_equal (@rev ascii)) in Hp. rewrite !rev_involutive in Hp.
    apply chars_inj in Hp. now split.
  - apply Forall_rev, digits_of_uint.
  - apply Forall_rev, digits_of_uint.
  - discriminate.
  - discriminate.
Qed.

Lemma append_inv_head (a b c : string) :
  (a ++ b)%string = (a ++ c)%string -> b = c.
Proof. induction a as [|x a IH]; simpl; intros H; [exact H|].
       injection H as H. now apply IH. Qed.

(** Within one corpus, distinct (path, index) pairs have distinct
    identifiers. *)
Lemma entry_id_inj_same_repo (repo p1 p2 : string) (i1 i2 : nat) :
  entry_id repo p1 i1 = entry_id repo p2 i2 -> p1 = p2 /\ i1 = i2.
Proof.
  unfold entry_id. intros E.
  apply append_inv_head in E. apply (append_inv_head "::") in E.
  now apply path_chunk_inj.
Qed.

Lemma char_free_chars (x : ascii) (s : string) :
  char_free x s = true ->
  Forall (fun c => c <> x) (list_ascii_of_string s).
Proof.
  induction s as [|c s IH]; simpl; intros H; constructor.
  - apply andb_prop in H as [H _]. apply negb_true_iff in H.
    now apply Ascii.eqb_neq.
  - apply IH. now apply andb_prop in H as [_ H].
Qed.

(** Across corpora whose names hold no colon, distinct triples have
    distinct identifiers. *)
Lemma entry_id_inj_colon_free (r1 r2 p1 p2 : string) (i1 i2 : nat) :
  colon_free r1 = true -> colon_free r2 = true ->
  entry_id r1 p1 i1 = entry_id r2 p2 i2 ->
  r1 = r2 /\ p1 = p2 /\ i1 = i2.
Proof.
  unfold entry_id. intros H1 H2 E.
  pose proof E as E'. apply (f_equal list_ascii_of_string) in E'.
  rewrite !chars_app in E'. simpl app in E'.
  apply (first_outside (fun c => c <> ":"%char)) in E';
    [| now apply char_free_chars | now apply char_free_chars
     | intros H; now apply H | intros H; now apply H].
  destruct E' as (Hr & _ & _). apply chars_inj in Hr. subst r2.
  split; [reflexivity|]. now apply (entry_id_inj_same_repo r1).
Qed.

End Identifiers.

(** ** Fuel *)

Section Fuel.

(** A loop that has returned returns the same with more fuel. *)
Lemma chunk_loop_more_fuel (fuel : nat) :
  forall fuel' words max_words overlap i chunks result,
    (fuel <= fuel')%nat ->
    chunk_loop fuel words max_words overlap i chunks = Done result ->
    chunk_loop fuel' words max_words overlap i chunks = Done result.
Proof.
  induction fuel as [|fuel IH];
    intros fuel' words mw ov i chunks result Hle H; [discriminate H|].
  destruct fuel' as [|fuel']; [lia|].
  simpl in *.
  destruct (i <? Z.of_nat (length words))%Z; [|exact H].
  apply IH; [lia | exact H].
Qed.

(** What [chunk_text] returns does not depend on the fuel it was given. *)
Lemma chunk_text_fuel_independent (fuel1 fuel2 : nat) (text : string)
    (max_words overlap : Z) (r1 r2 : list string) :
  chunk_text fuel1 text max_words overlap = Done r1 ->
  chunk_text fuel2 text max_words overlap = Done r2 ->
  r1 = r2.
Proof.
  unfold chunk_text.
  destruct (Z.of_nat (length (Py.split text)) <=? max_words)%Z.
  - intros H1 H2. congruence.
  - intros H1 H2.
    apply (chunk_loop_more_fuel fuel1 (Nat.max fuel1 fuel2)) in H1; [|lia].
    apply (chunk_loop_more_fuel fuel2 (Nat.max fuel1 fuel2)) in H2; [|lia].
    congruence.
Qed.

(** With the default parameters, fuel beyond the word count suffices. *)
Lemma chunk_text_default_returns (fuel : nat) (text : string) :
  (length (Py.split text) < fuel)%nat ->
  exists chunks,
    chunk_text fuel text default_max_words default_overlap = Done chunks /\
    chunks <> [].
Proof.
  intros Hfuel.
  destruct (Z.le_gt_cases (word_count text) default_max_words) as [Hs|Hl].
  - exists [text]. split; [now apply chunk_text_short | discriminate].
  - assert (Hov : (0 <= default_overlap < default_max_words)%Z)
      by (unfold default_overlap, default_max_words; lia).
    pose proof (window_count_le (Py.split text) _ _ Hov) as Hle.
    eexists. split.
    + apply chunk_text_long; [lia | exact Hl | ].
      fold (word_count text) in Hle |- *. lia.
    + pose proof (count_bounds text _ _ Hov) as Hb.
      specialize (Hb ltac:(unfold default_max_words in Hl; lia)).
      fold (word_count text).
      destruct (window_count (word_count text)
                  (default_max_words - default_overlap)) eqn:E.
      * simpl in Hb. lia.
      * discriminate.
Qed.

End Fuel.

(** ** Building and embedding the entries *)

Section Ingest.

Context {V : Type}.

Lemma enumerate_from_snd {A : Type} (l : list A) :
  forall i, map snd (enumerate_from i l) = l.
Proof.
  induction l as [|x l IH]; intros i; simpl; [|rewrite IH]; reflexivity.
Qed.

Lemma enumerate_from_fst {A : Type} (l : list A) :
  forall i, map fst (enumerate_from i l) = seq i (length l).
Proof.
  induction l as [|x l IH]; intros i; simpl; [|rewrite IH]; reflexivity.
Qed.

Lemma forall2_map {A B C : Type} (R : A -> B -> Prop) (g : A -> C)
    (g' : B -> C) (l : list A) (l' : list B) :
  Forall2 R l l' -> (forall a b, R a b -> g a = g' b) -> map g l = map g' l'.
Proof.
  intros H Hg. induction H as [|a b l l' Hab _ IH]; simpl; [reflexivity|].
  now rewrite IH, (Hg a b Hab).
Qed.

Lemma forall2_filter {A B : Type} (R : A -> B -> Prop) (f : A -> bool)
    (f' : B -> bool) (l : list A) (l' : list B) :
  Forall2 R l l' -> (forall a b, R a b -> f a = f' b) ->
  Forall2 R (filter f l) (filter f' l').
Proof.
  intros H Hf. induction H as [|a b l l' Hab _ IH]; simpl; [constructor|].
  rewrite <- (Hf a b Hab). destruct (f a); [constructor|]; assumption.
Qed.

(** The embedding loop returns the entries it was given, each with an
    embedding assigned and nothing else changed. *)
Lemma attach_embedded (embs : list V) (ies : list (nat * Entry.t V)) :
  forall es', attach embs ies = Done es' ->
              Forall2 embedded (map snd ies) es'.
Proof.
  induction ies as [|[i e] ies IH]; intros es' H; simpl in H.
  - injection H as <-. constructor.
  - unfold Py.index in H. destruct (nth_error embs i) as [v|];
      [|discriminate H].
    simpl in H. destruct (attach embs ies) as [rest| |];
      [|discriminate H|discriminate H].
    simpl in H. injection H as <-. simpl.
    constructor; [now exists v | now apply IH].
Qed.

(** The entries of one file: one per chunk, numbered in chunk order. *)
Lemma entries_of_file_done (fuel : nat) (repo fname txt : string)
    (block : list (Entry.t V)) :
  entries_of_file fuel repo (fname, txt) = Done block ->
  exists chunks,
    chunk_text fuel (Py.or_else txt "") default_max_words default_overlap
    = Done chunks /\
    block = map (new_entry repo fname) (enumerate chunks).
Proof.
  unfold entries_of_file. intros H.
  destruct (chunk_text fuel (Py.or_else txt "") default_max_words
              default_overlap) as [chunks| |]; [|discriminate H ..].
  simpl in H. injection H as <-. now exists chunks.
Qed.

(** The outer loop appends the entries of each file in turn. *)
Lemma build_entries_blocks (fuel : nat) (repo : string)
    (items : list (string * string)) :
  forall (acc entries : list (Entry.t V)),
    build_entries fuel repo items acc = Done entries ->
    exists blocks,
      Forall2 (fun item block => entries_of_file fuel repo item = Done block)
        items blocks /\
      entries = acc ++ concat blocks.
Proof.
  induction items as [|item items IH]; intros acc entries H; simpl in H.
  - injection H as <-. exists []. split; [constructor|].
    simpl. now rewrite List.app_nil_r.
  - destruct (entries_of_file fuel repo item) as [block| |] eqn:E;
      [|discriminate H ..].
    simpl in H. destruct (IH _ _ H) as (blocks & HF & ->).
    exists (block :: blocks). split; [now constructor|].
    simpl. now rewrite List.app_assoc.
Qed.

Lemma build_entries_fuel_independent (fuel1 fuel2 : nat) (repo : string)
    (items : list (string * string)) :
  forall (acc e1 e2 : list (Entry.t V)),
    build_entries fuel1 repo items acc = Done e1 ->
    build_entries fuel2 repo items acc = Done e2 ->
    e1 = e2.
Proof.
  induction items as [|item items IH]; intros acc e1 e2 H1 H2;
    simpl in H1, H2.
  - congruence.
  - destruct (entries_of_file fuel1 repo item) as [b1| |] eqn:E1;
      [|discriminate H1 ..].
    destruct (entries_of_file fuel2 repo item) as [b2| |] eqn:E2;
      [|discriminate H2 ..].
    simpl in H1, H2. destruct item as [fname txt].
    apply entries_of_file_done in E1 as (c1 & Hc1 & ->).
    apply entries_of_file_done in E2 as (c2 & Hc2 & ->).
    rewrite (chunk_text_fuel_independent _ _ _ _ _ _ _ Hc1 Hc2) in H1.
    exact (IH _ _ _ H1 H2).
Qed.

Variable encode : list string -> list V.
Variable resolve : string -> string * node.

(** A completed ingestion, taken apart. *)
Lemma ingest_done (fuel : nat) (root repo : string)
    (entries : list (Entry.t V)) :
  ingest encode resolve fuel root repo = Done entries ->
  exists items built,
    read_files (resolve root) = Done items /\
    build_entries fuel repo items [] = Done built /\
    Forall2 embedded built entries.
Proof.
  unfold ingest. intros H.
  destruct (read_files (resolve root)) as [items| |]; [|discriminate H ..].
  simpl in H.
  destruct (build_entries fuel repo items []) as [built| |] eqn:E;
    [|discriminate H ..].
  simpl in H. apply attach_embedded in H.
  unfold enumerate in H. rewrite enumerate_from_snd in H.
  now exists items, built.
Qed.

End Ingest.

Section EntryInvariants.

Context {V : Type}.

(** What holds of every freshly built entry holds of every entry the
    outer loop returns. *)
Lemma build_entries_invariant (P : Entry.t V -> Prop) (fuel : nat)
    (repo : string) (items : list (string * string)) :
  (forall fname ich, P (new_entry repo fname ich)) ->
  forall acc entries,
    Forall P acc ->
    build_entries fuel repo items acc = Done entries ->
    Forall P entries.
Proof.
  intros Hnew.
  induction items as [|item items IH]; intros acc entries Hacc H;
    simpl in H.
  - now injection H as <-.
  - destruct (entries_of_file fuel repo item) as [block| |] eqn:E;
      [|discriminate H ..].
    simpl in H. destruct item as [fname txt].
    apply entries_of_file_done in E as (chunks & _ & ->).
    refine (IH _ _ _ H).
    apply Forall_app. split; [exact Hacc|].
    apply Forall_forall. intros e He.
    apply in_map_iff in He as (ich & <- & _). apply Hnew.
Qed.

Lemma forall2_transfer {A B : Type} (R : A -> B -> Prop) (P : A -> Prop)
    (Q : B -> Prop) (l : list A) (l' : list B) :
  Forall2 R l l' -> (forall a b, R a b -> P a -> Q b) ->
  Forall P l -> Forall Q l'.
Proof.
  intros H HPQ. induction H as [|a b l l' Hab _ IH]; intros HP;
    [constructor|].
  inversion HP; subst. constructor; [eapply HPQ; eassumption | now apply IH].
Qed.

End EntryInvariants.

(** C5 (as stated, refuted): two distinct (corpus_id, path, chunk_index)
    triples with the same identifier. *)
Lemma entry_id_collision_counterexample :
  ("a", "b::c", 0%nat) <> ("a::b", "c", 0%nat) /\
  entry_id "a" "b::c" 0 = entry_id "a::b" "c" 0.
Proof. split; [discriminate | reflexivity]. Qed.

(** C5 (amended): every entry of a completed ingestion has the identifier
    [corpus_id ++ "::" ++ path ++ "::chunk" ++ str(chunk_index)] of its own
    metadata; a second ingestion of the same input gives the same
    identifiers in the same order, whatever the embedder and the fuel; and
    identifiers are unique within a corpus (same corpus_id, distinct
    (path, chunk_index)), and across corpora whose corpus_id contains no
    colon. *)
Theorem entry_ids_deterministic_unique_per_corpus {V : Type}
    (encode1 encode2 : list string -> list V)
    (resolve : string -> string * node) (fuel1 fuel2 : nat)
    (root repo : string) (entries1 entries2 : list (Entry.t V)) :
  ingest encode1 resolve fuel1 root repo = Done entries1 ->
  ingest encode2 resolve fuel2 root repo = Done entries2 ->
  Forall (fun e =>
            Entry.repo (Entry.meta e) = repo /\
            Entry.id e
            = (repo ++ "::" ++ Entry.path (Entry.meta e) ++ "::chunk"
               ++ Py.str_of_nat (Entry.chunk (Entry.meta e)))%string)
    entries1 /\
  map Entry.id entries1 = map Entry.id entries2 /\
  (forall p1 i1 p2 i2,
      entry_id repo p1 i1 = entry_id repo p2 i2 -> p1 = p2 /\ i1 = i2) /\
  (forall r1 p1 i1 r2 p2 i2,
      colon_free r1 = true -> colon_free r2 = true ->
      entry_id r1 p1 i1 = entry_id r2 p2 i2 ->
      r1 = r2 /\ p1 = p2 /\ i1 = i2).
Proof.
  intros H1 H2.
  apply ingest_done in H1 as (items1 & built1 & Hr1 & Hb1 & Hf1).
  apply ingest_done in H2 as (items2 & built2 & Hr2 & Hb2 & Hf2).
  rewrite Hr1 in Hr2. injection Hr2 as <-.
  pose proof (build_entries_fuel_independent _ _ _ _ _ _ _ Hb1 Hb2) as <-.
  split; [|split; [|split]].
  - apply (forall2_transfer embedded
             (fun e =>
                Entry.repo (Entry.meta e) = repo /\
                Entry.id e
                = entry_id repo (Entry.path (Entry.meta e))
                    (Entry.chunk (Entry.meta e))) _ built1 entries1 Hf1).
    + intros a b [v ->] Ha. exact Ha.
    + refine (build_entries_invariant _ fuel1 repo items1 _ [] built1
                (Forall_nil _) Hb1).
      intros fname [i ch]. now split.
  - transitivity (map Entry.id built1).
    + symmetry. apply (forall2_map embedded _ _ _ _ Hf1).
      now intros a b [v ->].
    + apply (forall2_map embedded _ _ _ _ Hf2). now intros a b [v ->].
  - intros p1 i1 p2 i2. apply entry_id_inj_same_repo.
  - intros r1 p1 i1 r2 p2 i2. apply entry_id_inj_colon_free.
Qed.

Lemma entry_ids_deterministic_unique_per_corpus_witness :
  ingest sample_encode (fun _ => sample_corpus) 1 "corpus" "repo"
  = Done sample_entries /\
  ingest (fun ts => map (fun _ => 7%nat) ts) (fun _ => sample_corpus) 9
    "corpus" "repo"
  = Done (map (fun e => set_embedding e 7%nat) sample_entries) /\
  map Entry.id sample_entries
  = map Entry.id (map (fun e => set_embedding e 7%nat) sample_entries).
Proof.
  assert (H1 : ingest sample_encode (fun _ => sample_corpus) 1 "corpus" "repo"
               = Done sample_entries) by reflexivity.
  assert (H2 : ingest (fun ts => map (fun _ => 7%nat) ts)
                 (fun _ => sample_corpus) 9 "corpus" "repo"
               = Done (map (fun e => set_embedding e 7%nat) sample_entries))
    by reflexivity.
  split; [exact H1|]. split; [exact H2|].
  exact (proj1 (proj2 (entry_ids_deterministic_unique_per_corpus
                         _ _ _ _ _ _ _ _ _ H1 H2))).
Defined.

(** C9 (as stated, refuted): an ingestion over a directory whose only file
    cannot be read completes, writes one entry and prints "Wrote 1
    entries"; the skipped file appears nowhere in what is printed. *)
Lemma main_report_skipped_counterexample :
  skipped_files (Dir [("bad.bin", File None)]) = ["bad.bin"] /\
  main sample_encode (fun _ => ("corpus", Dir [("bad.bin", File None)])) 1
    ["embed_all_files.py"; "corpus"; "out.json"]
  = (mkEffects
       [("out.json",
         [Entry.mk "repo::bad.bin::chunk0" ""
            (Entry.mkMeta "repo" "bad.bin" 0) (Some 0%nat)])]
       ["Wrote 1 entries"],
     Done tt) /\
  existsb (occurs "bad.bin") ["Wrote 1 entries"] = false.
Proof. repeat split. Qed.

(** C9 (amended): when [main] completes, it has dumped one list of
    entries to the output file and printed exactly one line, "Wrote N
    entries", where N is the number of entries in that list; the report
    says nothing else, and files whose read failed are not reported. *)
Theorem main_report_counts_written {V : Type}
    (encode : list string -> list V) (resolve : string -> string * node)
    (fuel : nat) (argv : list string) (eff : effects V) :
  main encode resolve fuel argv = (eff, Done tt) ->
  exists out entries,
    nth_error argv 2 = Some out /\
    written eff = [(out, entries)] /\
    printed eff
    = [("Wrote " ++ Py.str_of_nat (length entries) ++ " entries")%string].
Proof.
  unfold main. intros H.
  destruct argv as [|prog [|root [|out rest]]]; try discriminate H.
  destruct (ingest encode resolve fuel root
              match rest with
              | [] => "repo"
              | r :: _ => r
              end) as [entries| |]; try discriminate H.
  injection H as <-. now exists out, entries.
Qed.

Lemma main_report_counts_written_witness :
  main sample_encode (fun _ => sample_corpus) 5
    ["embed_all_files.py"; "corpus"; "out.json"]
  = (mkEffects [("out.json", sample_entries)] ["Wrote 3 entries"], Done tt) /\
  exists out entries,
    nth_error ["embed_all_files.py"; "corpus"; "out.json"] 2 = Some out /\
    written (mkEffects [("out.json", sample_entries)] ["Wrote 3 entries"])
    = [(out, entries)] /\
    printed (mkEffects [("out.json", sample_entries)] ["Wrote 3 entries"])
    = [("Wrote " ++ Py.str_of_nat (length entries) ++ " entries")%string].
Proof.
  assert (H : main sample_encode (fun _ => sample_corpus) 5
                ["embed_all_files.py"; "corpus"; "out.json"]
              = (mkEffects [("out.json", sample_entries)]
                   ["Wrote 3 entries"], Done tt)) by reflexivity.
  split; [exact H|].
  exact (main_report_counts_written _ _ _ _ _ H).
Defined.

(** ** The walk of a well-formed tree *)

Section Walk.

Lemma node_induction (P : node -> Prop) :
  (forall content, P (File content)) ->
  P Other ->
  (forall entries, Forall (fun e => P (snd e)) entries -> P (Dir entries)) ->
  P Denied ->
  (forall content, P (Device content)) ->
  forall n, P n.
Proof.
  intros HF HO HD HN HV. fix IH 1. intros [content|entries| | |content].
  - apply HF.
  - apply HD. revert entries. fix IHes 1. intros [|[nm c] entries].
    + constructor.
    + constructor; [apply IH | apply IHes].
  - apply HO.
  - apply HN.
  - apply HV.
Qed.

Lemma distinct_NoDup (l : list string) : distinct l = true -> NoDup l.
Proof.
  induction l as [|x l IH]; simpl; intros H; constructor.
  - apply andb_prop in H as [H _]. apply negb_true_iff in H.
    intros Hin. assert (E : existsb (String.eqb x) l = true).
    { apply existsb_exists. exists x. split; [exact Hin|].
      apply String.eqb_refl. }
    congruence.
  - apply IH. now apply andb_prop in H as [_ H].
Qed.

Lemma char_free_app_char (x : ascii) (a b : string) :
  char_free x (a ++ String x b) = false.
Proof.
  induction a as [|c a IH]; simpl.
  - now rewrite Ascii.eqb_refl.
  - rewrite IH. apply andb_false_r.
Qed.

(** Two names without the character [x], each followed by [x], start the
    same string only if they are the same name. *)
Lemma name_before_char (x : ascii) (a b r1 r2 : string) :
  char_free x a = true -> char_free x b = true ->
  (a ++ String x r1)%string = (b ++ String x r2)%string ->
  a = b.
Proof.
  intros Ha Hb E. apply (f_equal list_ascii_of_string) in E.
  rewrite !chars_app in E. simpl in E.
  apply (first_outside (fun c => c <> x)) in E;
    [| now apply char_free_chars | now apply char_free_chars
     | intros H; now apply H | intros H; now apply H].
  destruct E as (E & _). now apply chars_inj.
Qed.

(** The paths of a walk, as lists of strings. *)
Lemma walk_paths (pre : string) (entries : list (string * node)) :
  map fst (rglob pre (Dir entries))
  = map (fun e => (pre ++ fst e)%string) entries
    ++ flat_map
         (fun e => map fst (rglob (pre ++ fst e ++ "/")%string (snd e)))
         entries.
Proof.
  simpl. rewrite map_app, map_map. f_equal.
  - apply map_ext. now intros [nm c].
  - induction entries as [|[nm c] entries IH]; simpl; [reflexivity|].
    now rewrite map_app, IH.
Qed.

(** Every path of a walk extends the prefix the walk started from. *)
Lemma rglob_prefix (n : node) :
  forall pre q, In q (map fst (rglob pre n)) ->
                exists r, q = (pre ++ r)%string.
Proof.
  induction n as [content| |entries IH| |content] using node_induction;
    intros pre q Hq; try contradiction.
  rewrite walk_paths in Hq. apply in_app_or in Hq as [Hq|Hq].
  - apply in_map_iff in Hq as (e & <- & _). now exists (fst e).
  - apply in_flat_map in Hq as (e & He & Hq).
    apply (proj1 (Forall_forall _ _) IH e He) in Hq as (r & ->).
    exists (fst e ++ "/" ++ r)%string. now rewrite !append_assoc.
Qed.

Lemma rglob_below (nm pre q : string) (c : node) :
  In q (map fst (rglob (pre ++ nm ++ "/")%string c)) ->
  exists r, q = (pre ++ nm ++ String "/" r)%string.
Proof.
  intros H. apply rglob_prefix in H as (r & ->).
  exists r. now rewrite !append_assoc.
Qed.

Lemma NoDup_map_append (pre : string) (l : list string) :
  NoDup l -> NoDup (map (fun s => (pre ++ s)%string) l).
Proof.
  induction 1 as [|x l Hx _ IH]; simpl; constructor; [|exact IH].
  intros Hin. apply in_map_iff in Hin as (y & E & Hy).
  apply append_inv_head in E. now subst y.
Qed.

(** In an accessible tree [is_file] raises for no entry of the walk. *)
Lemma accessible_walk (n : node) :
  accessible n = true ->
  forall pre, Forall (fun f => snd f <> Denied) (rglob pre n).
Proof.
  induction n as [content| |entries IH| |content] using node_induction;
    intros Hacc pre; try constructor.
  cbn [rglob]. cbn [accessible] in Hacc.
  pose proof (proj1 (forallb_forall _ _) Hacc) as Hsub.
  apply Forall_app. split; apply Forall_forall.
  - intros f Hf. apply in_map_iff in Hf as ([nm c] & <- & Hin).
    simpl. intros ->. now specialize (Hsub _ Hin).
  - intros f Hf. apply in_flat_map in Hf as ([nm c] & Hin & Hf).
    pose proof (proj1 (Forall_forall _ _) IH (nm, c) Hin) as IHc.
    simpl in IHc. specialize (IHc (Hsub _ Hin) (pre ++ nm ++ "/")%string).
    exact (proj1 (Forall_forall _ _) IHc f Hf).
Qed.

(** The walks of the subdirectories of a directory do not meet. *)
Lemma subwalks_NoDup (pre : string) (entries : list (string * node)) :
  Forall (fun e => forall pre', NoDup (map fst (rglob pre' (snd e))))
    entries ->
  NoDup (map fst entries) ->
  (forall e, In e entries -> char_free "/" (fst e) = true) ->
  NoDup (flat_map
           (fun e => map fst (rglob (pre ++ fst e ++ "/")%string (snd e)))
           entries).
Proof.
  induction entries as [|e es IHes]; intros HF Hn Hfree; simpl;
    [constructor|].
  inversion HF as [|? ? He HFes]; inversion Hn as [|? ? Hne Hnes]; subst.
  apply NoDup_app.
  - apply He.
  - apply IHes; [exact HFes | exact Hnes |].
    intros e' He'. apply Hfree. now right.
  - intros q Hq Hq'. apply rglob_below in Hq as (r & ->).
    apply in_flat_map in Hq' as (e' & He' & Hq').
    apply rglob_below in Hq' as (r' & E).
    apply append_inv_head in E.
    apply name_before_char in E;
      [| apply Hfree; now left | apply Hfree; now right].
    apply Hne. rewrite E. now apply in_map.
Qed.

(** In a well-formed tree no path is walked twice. *)
Lemma rglob_paths_NoDup (n : node) :
  well_formed n = true -> forall pre, NoDup (map fst (rglob pre n)).
Proof.
  induction n as [content| |entries IH| |content] using node_induction;
    intros Hwf pre; try constructor.
  rewrite walk_paths. simpl in Hwf.
  apply andb_prop in Hwf as [Hwf Hsub].
  apply andb_prop in Hwf as [Hnames Hslash].
  apply distinct_NoDup in Hnames.
  assert (Hfree : forall e, In e entries -> char_free "/" (fst e) = true).
  { intros e He. apply (proj1 (forallb_forall _ _) Hslash).
    now apply in_map. }
  assert (Hsubs : Forall (fun e => forall pre',
                              NoDup (map fst (rglob pre' (snd e)))) entries).
  { apply Forall_forall. intros [nm c] He pre'.
    apply (proj1 (Forall_forall _ _) IH (nm, c) He).
    exact (proj1 (forallb_forall _ _) Hsub (nm, c) He). }
  apply NoDup_app.
  - rewrite <- (map_map fst (fun s => (pre ++ s)%string)).
    now apply NoDup_map_append.
  - now apply subwalks_NoDup.
  - intros q Hq Hq'. apply in_map_iff in Hq as (e & <- & He).
    apply in_flat_map in Hq' as (e' & He' & Hq').
    apply rglob_below in Hq' as (r' & E).
    apply append_inv_head in E.
    pose proof (Hfree e He) as Hfe. rewrite E in Hfe.
    now rewrite char_free_app_char in Hfe.
Qed.

(** The paths read are among the paths walked, and as free of
    repetition. *)
Lemma read_paths_in (l : list (string * node)) (q : string) :
  In q (map fst (map text_or_empty (flat_map file_entry l))) ->
  In q (map fst l).
Proof.
  induction l as [|[rel f] l IHl]; simpl; [trivial|].
  destruct f as [[txt|]| | | |content]; simpl; intros H;
    try (now right; apply IHl);
    (destruct H as [E|H]; [now left | right; now apply IHl]).
Qed.

Lemma read_paths_NoDup (l : list (string * node)) :
  NoDup (map fst l) ->
  NoDup (map fst (map text_or_empty (flat_map file_entry l))).
Proof.
  induction l as [|[rel f] l IHl]; simpl; intros Hnd; [constructor|].
  inversion Hnd as [|? ? Hrel Hl]; subst.
  destruct f as [[txt|]| | | |content]; simpl; try now apply IHl.
  - constructor; [|now apply IHl].
    intros Hin. now apply Hrel, read_paths_in.
  - constructor; [|now apply IHl].
    intros Hin. now apply Hrel, read_paths_in.
Qed.

(** Reading a well-formed tree gives every path at most once. *)
Lemma read_files_paths_NoDup (root : string * node)
    (items : list (string * string)) :
  well_formed (snd root) = true ->
  read_files root = Done items ->
  NoDup (map fst items).
Proof.
  destruct root as [name n]. cbn [snd]. intros Hwf H.
  destruct n as [[txt|]|entries| | |content].
  - injection H as <-. simpl. constructor; [intros []|constructor].
  - discriminate H.
  - apply read_files_directory_done in H. subst items.
    apply read_paths_NoDup. now apply rglob_paths_NoDup.
  - injection H as <-. constructor.
  - discriminate H.
  - injection H as <-. constructor.
Qed.

End Walk.

(** ** The entries of one path *)

Section PathEntries.

Context {V : Type}.

Variable fuel : nat.
Variable repo : string.

Lemma new_entries_of_path (fname p : string) (l : list (nat * string)) :
  entries_of_path p (map (@new_entry V repo fname) l)
  = if String.eqb fname p then map (new_entry repo fname) l else [].
Proof.
  unfold entries_of_path.
  induction l as [|[i ch] l IH]; simpl.
  - now destruct (String.eqb fname p).
  - rewrite IH. now destruct (String.eqb fname p).
Qed.

Lemma new_entries_chunk (fname : string) (l : list (nat * string)) :
  map (fun e => Entry.chunk (Entry.meta e))
    (map (@new_entry V repo fname) l)
  = map fst l.
Proof. rewrite map_map. apply map_ext. now intros [i ch]. Qed.

Lemma new_entries_text (fname : string) (l : list (nat * string)) :
  map Entry.text (map (@new_entry V repo fname) l) = map snd l.
Proof. rewrite map_map. apply map_ext. now intros [i ch]. Qed.

(** Within the entries of one file: all or none are of a given path, the
    indices count from 0 and the texts are the chunks in order. *)
Lemma block_of_path (fname txt p : string) (block : list (Entry.t V)) :
  entries_of_file fuel repo (fname, txt) = Done block ->
  entries_of_path p block = (if String.eqb fname p then block else []) /\
  map (fun e => Entry.chunk (Entry.meta e)) block = seq 0 (length block) /\
  chunk_text fuel (Py.or_else txt "") default_max_words default_overlap
  = Done (map Entry.text block).
Proof.
  intros H. apply entries_of_file_done in H as (chunks & Hc & ->).
  split; [apply new_entries_of_path|]. split.
  - rewrite new_entries_chunk, length_map. unfold enumerate.
    rewrite enumerate_from_fst. f_equal.
    rewrite <- (length_map snd). now rewrite enumerate_from_snd.
  - rewrite new_entries_text. unfold enumerate.
    now rewrite enumerate_from_snd.
Qed.

(** A path that was not read has no entries. *)
Lemma no_entries_of_unread_path (p : string)
    (items : list (string * string)) (blocks : list (list (Entry.t V))) :
  Forall2 (fun item block => entries_of_file fuel repo item = Done block)
    items blocks ->
  ~ In p (map fst items) ->
  entries_of_path p (concat blocks) = [].
Proof.
  induction 1 as [|[fname txt] block items blocks Hb _ IH]; intros Hp;
    [reflexivity|].
  simpl. unfold entries_of_path in *. rewrite filter_app.
  destruct (block_of_path fname txt p block Hb) as (Hf & _).
  unfold entries_of_path in Hf. rewrite Hf.
  destruct (String.eqb_spec fname p) as [->|_].
  - exfalso. apply Hp. now left.
  - simpl. apply IH. intros Hin. apply Hp. now right.
Qed.

(** When every path is read once, the entries of a path are exactly the
    entries of its file. *)
Lemma entries_of_read_path (p : string)
    (items : list (string * string)) (blocks : list (list (Entry.t V))) :
  Forall2 (fun item block => entries_of_file fuel repo item = Done block)
    items blocks ->
  NoDup (map fst items) ->
  map (fun e => Entry.chunk (Entry.meta e))
    (entries_of_path p (concat blocks))
  = seq 0 (length (entries_of_path p (concat blocks))) /\
  (forall txt, In (p, txt) items ->
     chunk_text fuel (Py.or_else txt "") default_max_words default_overlap
     = Done (map Entry.text (entries_of_path p (concat blocks)))).
Proof.
  induction 1 as [|[fname txt] block items blocks Hb HF IH]; intros Hnd.
  - split; [reflexivity | intros txt []].
  - inversion Hnd as [|? ? Hfresh Hrest]; subst.
    destruct (block_of_path fname txt p block Hb) as (Hf & Hidx & Htxt).
    simpl concat. unfold entries_of_path in *. rewrite filter_app, Hf.
    destruct (String.eqb_spec fname p) as [->|Hne].
    + pose proof (no_entries_of_unread_path p items blocks HF Hfresh) as E.
      unfold entries_of_path in E. rewrite E, List.app_nil_r.
      split; [exact Hidx|].
      intros txt' [E'|Hin].
      * injection E' as <-. exact Htxt.
      * exfalso. apply Hfresh. now apply (in_map fst) in Hin.
    + simpl. destruct (IH Hrest) as (IHidx & IHtxt).
      split; [exact IHidx|].
      intros txt' [E'|Hin]; [congruence | now apply IHtxt].
Qed.

End PathEntries.

(** C6: in a completed ingestion of a well-formed tree (no two entries of
    a directory share a name and no name holds a path separator), the
    entries of any one path carry the chunk indices 0, 1, 2, ... without
    gap, in the order of the entries, and their texts are the chunks of
    that file in the order [chunk_text] returned them. *)
Theorem chunk_indices_contiguous {V : Type}
    (encode : list string -> list V) (resolve : string -> string * node)
    (fuel : nat) (root repo path : string) (entries : list (Entry.t V)) :
  well_formed (snd (resolve root)) = true ->
  ingest encode resolve fuel root repo = Done entries ->
  map (fun e => Entry.chunk (Entry.meta e)) (entries_of_path path entries)
  = seq 0 (length (entries_of_path path entries)) /\
  (forall items txt,
      read_files (resolve root) = Done items ->
      In (path, txt) items ->
      chunk_text fuel (Py.or_else txt "") default_max_words default_overlap
      = Done (map Entry.text (entries_of_path path entries))).
Proof.
  intros Hwf H.
  apply ingest_done in H as (items & built & Hread & Hbuilt & Hemb).
  pose proof (read_files_paths_NoDup _ _ Hwf Hread) as Hnd.
  apply build_entries_blocks in Hbuilt as (blocks & HF & ->).
  simpl app in Hemb.
  destruct (entries_of_read_path fuel repo path items blocks HF Hnd)
    as (Hidx & Htxt).
  assert (Hsel : Forall2 embedded
                   (entries_of_path path (concat blocks))
                   (entries_of_path path entries)).
  { unfold entries_of_path. apply forall2_filter; [exact Hemb|].
    now intros a b [v ->]. }
  assert (Hchunk : map (fun e => Entry.chunk (Entry.meta e))
                     (entries_of_path path (concat blocks))
                   = map (fun e => Entry.chunk (Entry.meta e))
                       (entries_of_path path entries)).
  { apply (forall2_map embedded _ _ _ _ Hsel). now intros a b [v ->]. }
  assert (Htext : map Entry.text (entries_of_path path (concat blocks))
                  = map Entry.text (entries_of_path path entries)).
  { apply (forall2_map embedded _ _ _ _ Hsel). now intros a b [v ->]. }
  split.
  - rewrite <- Hchunk, <- (Forall2_length Hsel). exact Hidx.
  - intros items' txt Hread' Hin.
    rewrite Hread in Hread'. injection Hread' as <-.
    rewrite <- Htext. now apply Htxt.
Qed.

Lemma chunk_indices_contiguous_witness :
  well_formed (snd big_corpus) = true /\
  ingest sample_encode (fun _ => big_corpus) 4 "corpus" "repo"
  = Done big_entries /\
  map (fun e => Entry.chunk (Entry.meta e))
    (entries_of_path "big.txt" big_entries)
  = seq 0 (length (entries_of_path "big.txt" big_entries)) /\
  length (entries_of_path "big.txt" big_entries) = 3%nat.
Proof.
  assert (Hwf : well_formed (snd ((fun _ : string => big_corpus) "corpus"))
                = true) by reflexivity.
  assert (H : ingest sample_encode (fun _ => big_corpus) 4 "corpus" "repo"
              = Done big_entries) by (vm_compute; reflexivity).
  split; [exact Hwf|]. split; [exact H|]. split; [|reflexivity].
  exact (proj1 (chunk_indices_contiguous sample_encode
                  (fun _ => big_corpus) 4 "corpus" "repo" "big.txt"
                  big_entries Hwf H)).
Defined.

(** * Further properties of the scripts *)

(** ** The shape of what [chunk_text] returns *)

Section ChunkShape.

(** The loop only ever appends to the list it was given. *)
Lemma chunk_loop_extends (fuel : nat) :
  forall words max_words overlap i chunks result,
    chunk_loop fuel words max_words overlap i chunks = Done result ->
    exists more, result = chunks ++ more.
Proof.
  induction fuel as [|fuel IH]; intros words mw ov i chunks result H;
    [discriminate H|].
  simpl in H. destruct (i <? Z.of_nat (length words))%Z.
  - apply IH in H as (more & ->). rewrite <- List.app_assoc. now eexists.
  - injection H as <-. exists []. now rewrite List.app_nil_r.
Qed.

(** With a positive step, what [chunk_text] returns is either the text
    alone or the joined windows. *)
Lemma chunk_text_done (fuel : nat) (text : string) (max_words overlap : Z)
    (chunks : list string) :
  (0 <= overlap < max_words)%Z ->
  chunk_text fuel text max_words overlap = Done chunks ->
  ((word_count text <= max_words)%Z /\ chunks = [text]) \/
  ((max_words < word_count text)%Z /\
   chunks
   = map (fun k =>
            Py.join " "
              (window (Py.split text) max_words (max_words - overlap) k))
       (seq 0 (window_count (word_count text) (max_words - overlap)))).
Proof.
  intros Hov H.
  destruct (Z.le_gt_cases (word_count text) max_words) as [Hs|Hl].
  - left. split; [exact Hs|].
    rewrite chunk_text_short in H by exact Hs. now injection H.
  - right. split; [exact Hl|].
    eapply chunk_text_fuel_independent; [exact H|].
    apply (chunk_text_long
             (S (window_count (word_count text) (max_words - overlap))));
      [lia | exact Hl | apply Nat.lt_succ_diag_r].
Qed.

End ChunkShape.

(** X1: [chunk_text] returns (for some amount of fuel) exactly when the
    text has at most [max_words] words, or has no word at all, or the
    step [max_words - overlap] is positive; in every other case the loop
    is still running whatever fuel it is given. *)
Theorem chunk_text_returns_iff (text : string) (max_words overlap : Z) :
  (exists fuel chunks, chunk_text fuel text max_words overlap = Done chunks)
  <->
  ((word_count text <= max_words)%Z \/ Py.split text = []
   \/ (0 < max_words - overlap)%Z).
Proof.
  split.
  - intros (fuel & chunks & H).
    destruct (Z.le_gt_cases (word_count text) max_words) as [Hs|Hl];
      [now left|].
    destruct (Py.split text) as [|w ws] eqn:E; [right; now left|].
    destruct (Z.lt_ge_cases 0 (max_words - overlap)) as [Hp|Hn];
      [right; now right|].
    rewrite chunk_text_nonpositive_step_diverges in H;
      [discriminate H | lia | exact Hl | rewrite E; discriminate].
  - intros [Hs|[He|Hp]].
    + exists 0%nat, [text]. now apply chunk_text_short.
    + destruct (Z.le_gt_cases (word_count text) max_words) as [Hs|Hl].
      * exists 0%nat, [text]. now apply chunk_text_short.
      * exists 1%nat, []. unfold chunk_text.
        unfold word_count in Hl. rewrite He in *. simpl in *.
        destruct (Z.leb_spec 0 max_words); [lia | reflexivity].
    + destruct (Z.le_gt_cases (word_count text) max_words) as [Hs|Hl].
      * exists 0%nat, [text]. now apply chunk_text_short.
      * eexists. eexists. apply chunk_text_long; [exact Hp | exact Hl |].
        apply Nat.lt_succ_diag_r.
Qed.

(** X2: with [0 <= overlap < max_words], no chunk that [chunk_text]
    returns holds more than [max_words] words, and when the text has a
    word no chunk is without one. *)
Theorem chunks_hold_at_most_max_words (fuel : nat) (text : string)
    (max_words overlap : Z) (chunks : list string) :
  (0 <= overlap < max_words)%Z ->
  chunk_text fuel text max_words overlap = Done chunks ->
  Forall (fun c => (word_count c <= max_words)%Z) chunks /\
  (Py.split text <> [] -> Forall (fun c => (1 <= word_count c)%Z) chunks).
Proof.
  intros Hov H.
  destruct (chunk_text_done _ _ _ _ _ Hov H) as [[Hs ->]|[Hl ->]].
  - split; [now repeat constructor|].
    intros Hne. repeat constructor. unfold word_count.
    destruct (Py.split text); [congruence | simpl; lia].
  - assert (Hb := count_bounds text max_words overlap Hov ltac:(lia)).
    assert (Hlen : forall k,
               word_count
                 (Py.join " "
                    (window (Py.split text) max_words
                       (max_words - overlap) k))
               = Z.max 0 (Z.min max_words
                            (word_count text
                             - Z.of_nat k * (max_words - overlap)))).
    { intros k. unfold word_count.
      rewrite (split_chunk_of text max_words overlap Hov).
      apply (window_length (Py.split text) max_words overlap Hov). }
    split; [|intros _]; apply Forall_forall; intros c Hc;
      apply in_map_iff in Hc as (k & <- & Hk); apply in_seq in Hk;
      rewrite Hlen; nia.
Qed.

Lemma chunks_hold_at_most_max_words_witness :
  Forall (fun c => (word_count c <= 3)%Z) ["a b c"; "b c d"; "c d"; "d"] /\
  Forall (fun c => (1 <= word_count c)%Z) ["a b c"; "b c d"; "c d"; "d"].
Proof.
  assert (Hov : (0 <= 2 < 3)%Z) by lia.
  assert (H : chunk_text 5 "a b c d" 3 2
              = Done ["a b c"; "b c d"; "c d"; "d"]) by reflexivity.
  destruct (chunks_hold_at_most_max_words 5 "a b c d" 3 2 _ Hov H)
    as (Hmax & Hmin).
  split; [exact Hmax | apply Hmin; discriminate].
Defined.

(** X3: with [0 <= overlap < max_words], consecutive chunks overlap as
    intended: what is left of the words of a chunk after its first
    [max_words - overlap] ones is exactly the first [overlap] words of the
    next chunk. *)
Theorem consecutive_chunks_share_overlap (fuel : nat) (text : string)
    (max_words overlap : Z) (chunks : list string) (k : nat) :
  (0 <= overlap < max_words)%Z ->
  chunk_text fuel text max_words overlap = Done chunks ->
  (S k < length chunks)%nat ->
  skipn (Z.to_nat (max_words - overlap)) (Py.split (nth k chunks ""))
  = firstn (Z.to_nat overlap) (Py.split (nth (S k) chunks "")).
Proof.
  intros Hov H Hk.
  destruct (chunk_text_done _ _ _ _ _ Hov H) as [[Hs ->]|[Hl ->]].
  - simpl in Hk. lia.
  - rewrite length_map, length_seq in Hk.
    rewrite !nth_map_seq by lia.
    rewrite !(split_chunk_of text max_words overlap Hov).
    rewrite !(window_nat (Py.split text) max_words overlap Hov).
    rewrite skipn_firstn_comm, skipn_skipn, firstn_firstn.
    rewrite Nat.min_l by lia.
    replace (Z.to_nat max_words - Z.to_nat (max_words - overlap))%nat
      with (Z.to_nat overlap) by lia.
    reflexivity.
Qed.

Lemma consecutive_chunks_share_overlap_witness :
  skipn 1 (Py.split "b c d") = firstn 2 (Py.split "c d").
Proof.
  assert (Hov : (0 <= 2 < 3)%Z) by lia.
  assert (H : chunk_text 5 "a b c d" 3 2
              = Done ["a b c"; "b c d"; "c d"; "d"]) by reflexivity.
  exact (consecutive_chunks_share_overlap 5 "a b c d" 3 2 _ 1 Hov H
           ltac:(simpl; lia)).
Defined.

(** X4: [chunk_text] returns no chunk at all only for a text without a
    word and a negative [max_words]; in particular never with
    [max_words >= 0], whatever the overlap. *)
Theorem chunk_text_empty_result (fuel : nat) (text : string)
    (max_words overlap : Z) :
  chunk_text fuel text max_words overlap = Done [] ->
  Py.split text = [] /\ (max_words < 0)%Z.
Proof.
  unfold chunk_text. intros H.
  destruct (Z.leb_spec (Z.of_nat (length (Py.split text))) max_words)
    as [Hs|Hl]; [discriminate H|].
  destruct (Py.split text) as [|w ws] eqn:E; [simpl in Hl; now split|].
  exfalso. destruct fuel as [|fuel]; [discriminate H|].
  simpl in H. apply chunk_loop_extends in H as (more & H).
  simpl in H. discriminate H.
Qed.

Lemma chunk_text_empty_result_witness :
  chunk_text 1 "   " (-1) 0 = Done [] /\
  Py.split "   " = [] /\ (-1 < 0)%Z.
Proof.
  assert (H : chunk_text 1 "   " (-1) 0 = Done []) by reflexivity.
  split; [exact H|].
  exact (chunk_text_empty_result 1 "   " (-1) 0 H).
Defined.

(** ** Entries and embeddings of a completed ingestion *)

Section IngestFacts.

Context {V : Type}.

Lemma or_else_empty (txt : string) : Py.or_else txt "" = txt.
Proof. now destruct txt. Qed.

(** With a [max_words] that is not negative a returned chunk list has a
    first chunk. *)
Lemma chunk_text_done_nonempty (fuel : nat) (text : string)
    (max_words overlap : Z) (chunks : list string) :
  (0 <= max_words)%Z ->
  chunk_text fuel text max_words overlap = Done chunks ->
  chunks <> [].
Proof.
  unfold chunk_text. intros Hmw H.
  destruct (Z.leb_spec (Z.of_nat (length (Py.split text))) max_words)
    as [Hs|Hl]; [injection H as <-; discriminate|].
  destruct (Py.split text) as [|w ws] eqn:E; [simpl in Hl; lia|].
  destruct fuel as [|fuel]; [discriminate H|].
  simpl in H. apply chunk_loop_extends in H as (more & ->). discriminate.
Qed.

(** The entries built for one file start with the entry of chunk 0. *)
Lemma entries_of_file_head (fuel : nat) (repo fname txt : string)
    (block : list (Entry.t V)) :
  entries_of_file fuel repo (fname, txt) = Done block ->
  exists ch rest,
    block = new_entry repo fname (0%nat, ch) :: rest /\
    ((word_count txt <= default_max_words)%Z -> ch = txt).
Proof.
  intros H. apply entries_of_file_done in H as (chunks & Hc & ->).
  rewrite or_else_empty in Hc.
  destruct chunks as [|ch chunks].
  - exfalso.
    assert (Hmw : (0 <= default_max_words)%Z)
      by (unfold default_max_words; lia).
    now apply (chunk_text_done_nonempty _ _ _ _ _ Hmw Hc).
  - exists ch, (map (new_entry repo fname) (enumerate_from 1 chunks)).
    split; [reflexivity|]. intros Hs.
    rewrite chunk_text_short in Hc by exact Hs. now injection Hc.
Qed.

Lemma forall2_in_left {A B : Type} (R : A -> B -> Prop) (l : list A)
    (l' : list B) (a : A) :
  Forall2 R l l' -> In a l -> exists b, In b l' /\ R a b.
Proof.
  induction 1 as [|x y l l' Hxy _ IH]; intros Hin; [contradiction|].
  destruct Hin as [->|Hin].
  - exists y. split; [now left | exact Hxy].
  - destruct (IH Hin) as (b & Hb & HR). exists b. split; [now right|auto].
Qed.

(** The embedding loop gives entry [i] row [i] of the embeddings. *)
Lemma attach_rows (embs : list V) (es : list (Entry.t V)) :
  forall i es',
    attach embs (enumerate_from i es) = Done es' ->
    map Entry.embedding es'
    = map Some (firstn (length es) (skipn i embs)).
Proof.
  induction es as [|e es IH]; intros i es' H; simpl in H.
  - injection H as <-. reflexivity.
  - unfold Py.index in H.
    destruct (nth_error embs i) as [v|] eqn:Ev; [|discriminate H].
    simpl in H.
    destruct (attach embs (enumerate_from (S i) es)) as [rest| |] eqn:Er;
      [|discriminate H ..].
    simpl in H. injection H as <-.
    apply IH in Er.
    assert (Hs : skipn i embs = v :: skipn (S i) embs).
    { clear - Ev. revert i Ev.
      induction embs as [|x embs IHe]; intros [|i] Ev; simpl in *;
        try discriminate Ev.
      - now injection Ev as ->.
      - now apply IHe. }
    rewrite Hs. simpl. now rewrite Er.
Qed.

(** The embedding loop fails as soon as the rows run out. *)
Lemma attach_short (embs : list V) (es : list (Entry.t V)) :
  forall i,
    (i <= length embs < i + length es)%nat ->
    attach embs (enumerate_from i es) = Raise IndexError.
Proof.
  induction es as [|e es IH]; intros i Hlen; simpl in *; [lia|].
  unfold Py.index.
  destruct (nth_error embs i) as [v|] eqn:Ev; [|reflexivity].
  assert (i < length embs)%nat
    by (apply nth_error_Some; rewrite Ev; discriminate).
  simpl. rewrite IH by lia. reflexivity.
Qed.

(** The embedding loop completes when there is a row for every entry. *)
Lemma attach_enough (embs : list V) (es : list (Entry.t V)) :
  forall i,
    (i + length es <= length embs)%nat ->
    exists es', attach embs (enumerate_from i es) = Done es'.
Proof.
  induction es as [|e es IH]; intros i Hlen; simpl in *;
    [now eexists|].
  unfold Py.index.
  destruct (nth_error embs i) as [v|] eqn:Ev.
  - simpl. destruct (IH (S i) ltac:(lia)) as (rest & ->). simpl.
    now eexists.
  - apply nth_error_None in Ev. lia.
Qed.

End IngestFacts.

(** X5: in a completed ingestion every file that was read has at least
    one entry, so there are at least as many entries as files: each read
    path has an entry with chunk index 0, and when the file holds at most
    600 words the text of that entry is the file text itself (the empty
    string for an empty file and for a file whose read failed). *)
Theorem every_file_has_an_entry {V : Type}
    (encode : list string -> list V) (resolve : string -> string * node)
    (fuel : nat) (root repo : string) (entries : list (Entry.t V))
    (items : list (string * string)) :
  ingest encode resolve fuel root repo = Done entries ->
  read_files (resolve root) = Done items ->
  (length items <= length entries)%nat /\
  (forall p txt,
      In (p, txt) items ->
      exists e,
        In e entries /\
        Entry.path (Entry.meta e) = p /\
        Entry.chunk (Entry.meta e) = 0%nat /\
        ((word_count txt <= default_max_words)%Z -> Entry.text e = txt)).
Proof.
  intros H Hread.
  apply ingest_done in H as (items' & built & Hread' & Hbuilt & Hemb).
  rewrite Hread in Hread'. injection Hread' as <-.
  apply build_entries_blocks in Hbuilt as (blocks & HF & ->).
  simpl app in Hemb. split.
  - rewrite <- (Forall2_length Hemb). clear Hemb Hread.
    induction HF as [|[fname txt] block items blocks Hb _ IH];
      [apply Nat.le_refl|].
    apply entries_of_file_head in Hb as (ch & rest & -> & _).
    simpl. rewrite length_app. lia.
  - intros p txt Hin.
    destruct (forall2_in_left _ _ _ _ HF Hin) as (block & Hblock & Hb).
    apply entries_of_file_head in Hb as (ch & rest & -> & Hch).
    assert (Hin0 : In (new_entry repo p (0%nat, ch)) (concat blocks))
      by (apply in_concat; eexists; split; [exact Hblock | now left]).
    destruct (forall2_in_left _ _ _ _ Hemb Hin0) as (e & He & v & ->).
    exists (set_embedding (new_entry repo p (0%nat, ch)) v).
    split; [exact He|]. now repeat split.
Qed.

Lemma every_file_has_an_entry_witness :
  (3 <= length sample_entries)%nat /\
  exists e,
    In e sample_entries /\
    Entry.path (Entry.meta e) = "sub/b.bin" /\
    Entry.chunk (Entry.meta e) = 0%nat /\
    Entry.text e = "".
Proof.
  assert (H : ingest sample_encode (fun _ => sample_corpus) 1 "corpus" "repo"
              = Done sample_entries) by reflexivity.
  assert (Hr : read_files ((fun _ : string => sample_corpus) "corpus")
               = Done [("a.txt", "alpha beta"); ("sub/b.bin", "");
                       ("sub/c.txt", "")]) by reflexivity.
  destruct (every_file_has_an_entry _ _ _ _ _ _ _ H Hr) as (Hlen & Hall).
  split; [exact Hlen|].
  destruct (Hall "sub/b.bin" "" ltac:(simpl; tauto))
    as (e & He & Hp & Hc & Ht).
  exists e. repeat split; try assumption.
  apply Ht. vm_compute. discriminate.
Defined.

(** X6: in a completed ingestion the embedding stored with entry [i] is
    row [i] of what the model returned for the texts of all entries, in
    entry order; every entry has an embedding. *)
Theorem embeddings_follow_entry_order {V : Type}
    (encode : list string -> list V) (resolve : string -> string * node)
    (fuel : nat) (root repo : string) (entries : list (Entry.t V)) :
  ingest encode resolve fuel root repo = Done entries ->
  map Entry.embedding entries
  = map Some (firstn (length entries)
                (encode (map Entry.text entries))).
Proof.
  unfold ingest. intros H.
  destruct (read_files (resolve root)) as [items| |]; [|discriminate H ..].
  simpl in H.
  destruct (build_entries fuel repo items []) as [built| |];
    [|discriminate H ..].
  simpl in H. pose proof (attach_embedded _ _ _ H) as Hemb.
  unfold enumerate in *. rewrite enumerate_from_snd in Hemb.
  apply attach_rows in H. rewrite H. simpl skipn.
  rewrite (Forall2_length Hemb).
  rewrite (forall2_map embedded Entry.text Entry.text _ _ Hemb);
    [reflexivity|].
  now intros a b [v ->].
Qed.

Lemma embeddings_follow_entry_order_witness :
  ingest sample_encode (fun _ => sample_corpus) 1 "corpus" "repo"
  = Done sample_entries /\
  map Entry.embedding sample_entries
  = map Some (firstn (length sample_entries)
                (sample_encode (map Entry.text sample_entries))).
Proof.
  assert (H : ingest sample_encode (fun _ => sample_corpus) 1 "corpus" "repo"
              = Done sample_entries) by reflexivity.
  split; [exact H|].
  exact (embeddings_follow_entry_order _ _ _ _ _ _ H).
Defined.

(** X7: when the model returns fewer rows than there are entries, [main]
    stops with an [IndexError] before anything is written or printed. *)
Theorem main_fails_on_missing_rows {V : Type}
    (encode : list string -> list V) (resolve : string -> string * node)
    (fuel : nat) (prog root out : string) (rest : list string)
    (items : list (string * string)) (built : list (Entry.t V)) :
  read_files (resolve root) = Done items ->
  build_entries fuel (hd "repo" rest) items [] = Done built ->
  (length (encode (map Entry.text built)) < length built)%nat ->
  main encode resolve fuel (prog :: root :: out :: rest)
  = (mkEffects [] [], Raise IndexError).
Proof.
  intros Hread Hbuilt Hlen. unfold main, ingest.
  replace (match rest with [] => "repo" | r :: _ => r end)
    with (hd "repo" rest) by now destruct rest.
  rewrite Hread. simpl. rewrite Hbuilt. simpl.
  unfold enumerate. rewrite attach_short by lia. reflexivity.
Qed.

Lemma main_fails_on_missing_rows_witness :
  main (fun _ : list string => [7%nat]) (fun _ => sample_corpus) 1
    ["embed_all_files.py"; "corpus"; "out.json"]
  = (mkEffects [] [], Raise IndexError).
Proof.
  apply (main_fails_on_missing_rows (fun _ : list string => [7%nat])
           (fun _ => sample_corpus) 1 "embed_all_files.py" "corpus"
           "out.json" []
           [("a.txt", "alpha beta"); ("sub/b.bin", ""); ("sub/c.txt", "")]
           (map (fun e => Entry.mk (Entry.id e) (Entry.text e)
                            (Entry.meta e) None) sample_entries)).
  - reflexivity.
  - reflexivity.
  - simpl. lia.
Defined.

(** ** When the ingestion completes *)

Section Completion.

Context {V : Type}.

(** The outer loop completes when the fuel exceeds the word count of
    every file. *)
Lemma build_entries_returns (fuel : nat) (repo : string)
    (items : list (string * string)) :
  Forall (fun item => (length (Py.split (snd item)) < fuel)%nat) items ->
  forall acc : list (Entry.t V),
    exists built, build_entries fuel repo items acc = Done built.
Proof.
  induction 1 as [|[fname txt] items Hfuel _ IH]; intros acc; simpl.
  - now eexists.
  - rewrite or_else_empty.
    destruct (chunk_text_default_returns fuel txt Hfuel) as (chunks & -> & _).
    simpl. apply IH.
Qed.

End Completion.

(** X8: everything [main] does before it opens the output file completes
    (no exception, no endless loop) whenever [read_files] returns, the
    chunk loops are given more iterations than any file read has words,
    and the model returns at least one row per text: the embedded entry
    list is then built, and it is not empty unless no file was read. *)
Theorem ingest_completes {V : Type}
    (encode : list string -> list V) (resolve : string -> string * node)
    (fuel : nat) (root repo : string) (items : list (string * string)) :
  read_files (resolve root) = Done items ->
  Forall (fun item => (length (Py.split (snd item)) < fuel)%nat) items ->
  (forall texts, (length texts <= length (encode texts))%nat) ->
  exists entries,
    ingest encode resolve fuel root repo = Done entries /\
    (length items <= length entries)%nat.
Proof.
  intros Hread Hfuel Hrows. unfold ingest. rewrite Hread. simpl.
  destruct (build_entries_returns (V := V) fuel repo items Hfuel [])
    as (built & Hbuilt).
  rewrite Hbuilt. simpl. unfold enumerate.
  destruct (attach_enough (encode (map Entry.text built)) built 0)
    as (entries & Hatt).
  - simpl. specialize (Hrows (map Entry.text built)).
    now rewrite length_map in Hrows.
  - exists entries. split; [exact Hatt|].
    apply attach_embedded in Hatt. rewrite enumerate_from_snd in Hatt.
    rewrite <- (Forall2_length Hatt).
    apply build_entries_blocks in Hbuilt as (blocks & HF & ->).
    simpl app. clear - HF.
    induction HF as [|[fname txt] block items blocks Hb _ IH];
      [apply Nat.le_refl|].
    apply entries_of_file_head in Hb as (ch & rest & -> & _).
    simpl. rewrite length_app. lia.
Qed.

Lemma ingest_completes_witness :
  exists entries,
    ingest sample_encode (fun _ => sample_corpus) 3 "corpus" "docs"
    = Done entries /\
    (3 <= length entries)%nat.
Proof.
  apply (ingest_completes sample_encode (fun _ => sample_corpus) 3
           "corpus" "docs"
           [("a.txt", "alpha beta"); ("sub/b.bin", ""); ("sub/c.txt", "")]).
  - reflexivity.
  - repeat constructor.
  - intros texts. unfold sample_encode. rewrite length_map. lia.
Defined.



(** ** Identifiers within one ingestion *)

Section UniqueIds.

Context {V : Type}.

Variable fuel : nat.
Variable repo : string.

Lemma NoDup_map_injective {A B : Type} (f : A -> B) (l : list A) :
  (forall a b, f a = f b -> a = b) -> NoDup l -> NoDup (map f l).
Proof.
  intros Hinj. induction 1 as [|x l Hx _ IH]; simpl; constructor;
    [|exact IH].
  intros Hin. apply in_map_iff in Hin as (y & E & Hy).
  apply Hinj in E. now subst y.
Qed.

(** The identifiers of the entries of one file. *)
Lemma block_ids (fname txt : string) (block : list (Entry.t V)) :
  entries_of_file fuel repo (fname, txt) = Done block ->
  map Entry.id block = map (entry_id repo fname) (seq 0 (length block)).
Proof.
  intros H. apply entries_of_file_done in H as (chunks & _ & ->).
  unfold enumerate.
  rewrite length_map, <- (length_map fst), enumerate_from_fst, length_seq.
  rewrite <- (enumerate_from_fst chunks 0), !map_map.
  apply map_ext. now intros [i ch].
Qed.

(** Every identifier built is that of a path that was read. *)
Lemma ids_of_read_paths (items : list (string * string))
    (blocks : list (list (Entry.t V))) (x : string) :
  Forall2 (fun item block => entries_of_file fuel repo item = Done block)
    items blocks ->
  In x (map Entry.id (concat blocks)) ->
  exists p i, In p (map fst items) /\ x = entry_id repo p i.
Proof.
  induction 1 as [|[fname txt] block items blocks Hb _ IH]; simpl;
    [contradiction|].
  rewrite map_app. intros Hin. apply in_app_or in Hin as [Hin|Hin].
  - rewrite (block_ids fname txt block Hb) in Hin.
    apply in_map_iff in Hin as (i & <- & _). exists fname, i.
    split; [now left | reflexivity].
  - destruct (IH Hin) as (p & i & Hp & ->). exists p, i.
    split; [now right | reflexivity].
Qed.

Lemma built_ids_NoDup (items : list (string * string))
    (blocks : list (list (Entry.t V))) :
  Forall2 (fun item block => entries_of_file fuel repo item = Done block)
    items blocks ->
  NoDup (map fst items) ->
  NoDup (map Entry.id (concat blocks)).
Proof.
  induction 1 as [|[fname txt] block items blocks Hb HF IH]; simpl;
    intros Hnd; [constructor|].
  inversion Hnd as [|? ? Hfresh Hrest]; subst.
  rewrite map_app. apply NoDup_app.
  - rewrite (block_ids fname txt block Hb).
    apply NoDup_map_injective; [|apply seq_NoDup].
    intros i j E. now apply entry_id_inj_same_repo in E.
  - now apply IH.
  - intros x Hx Hx'. rewrite (block_ids fname txt block Hb) in Hx.
    apply in_map_iff in Hx as (i & <- & _).
    destruct (ids_of_read_paths items blocks _ HF Hx') as (p & j & Hp & E).
    apply entry_id_inj_same_repo in E as [-> _]. contradiction.
Qed.

End UniqueIds.

(** X11: in a completed ingestion of a well-formed tree no two entries
    have the same identifier. *)
Theorem entry_ids_unique_in_one_ingestion {V : Type}
    (encode : list string -> list V) (resolve : string -> string * node)
    (fuel : nat) (root repo : string) (entries : list (Entry.t V)) :
  well_formed (snd (resolve root)) = true ->
  ingest encode resolve fuel root repo = Done entries ->
  NoDup (map Entry.id entries).
Proof.
  intros Hwf H.
  apply ingest_done in H as (items & built & Hread & Hbuilt & Hemb).
  pose proof (read_files_paths_NoDup _ _ Hwf Hread) as Hnd.
  apply build_entries_blocks in Hbuilt as (blocks & HF & ->).
  simpl app in Hemb.
  rewrite <- (forall2_map embedded Entry.id Entry.id _ _ Hemb)
    by now intros a b [v ->].
  now apply (built_ids_NoDup fuel repo items blocks).
Qed.

Lemma entry_ids_unique_in_one_ingestion_witness :
  NoDup (map Entry.id big_entries).
Proof.
  assert (Hwf : well_formed (snd ((fun _ : string => big_corpus) "corpus"))
                = true) by reflexivity.
  assert (H : ingest sample_encode (fun _ => big_corpus) 4 "corpus" "repo"
              = Done big_entries) by (vm_compute; reflexivity).
  exact (entry_ids_unique_in_one_ingestion _ _ _ _ _ _ Hwf H).
Defined.

(** X12: reading a well-formed tree returns every relative path at most
    once, so a path names one file of the corpus. *)
Theorem read_files_yields_distinct_paths (root : string * node)
    (items : list (string * string)) :
  well_formed (snd root) = true ->
  read_files root = Done items ->
  NoDup (map fst items) /\
  (forall p t1 t2, In (p, t1) items -> In (p, t2) items -> t1 = t2).
Proof.
  intros Hwf H. pose proof (read_files_paths_NoDup _ _ Hwf H) as Hnd.
  split; [exact Hnd|]. clear H Hwf.
  induction items as [|[q t] items IH]; intros p t1 t2 H1 H2;
    [contradiction|].
  simpl in Hnd. inversion Hnd as [|? ? Hq Hrest]; subst.
  destruct H1 as [E1|H1], H2 as [E2|H2].
  - congruence.
  - injection E1 as -> ->. exfalso. apply Hq.
    now apply (in_map fst) in H2.
  - injection E2 as -> ->. exfalso. apply Hq.
    now apply (in_map fst) in H1.
  - now apply (IH Hrest p).
Qed.

Lemma read_files_yields_distinct_paths_witness :
  NoDup ["a.txt"; "sub/b.bin"; "sub/c.txt"].
Proof.
  assert (Hwf : well_formed (snd sample_corpus) = true) by reflexivity.
  assert (H : read_files sample_corpus
              = Done [("a.txt", "alpha beta"); ("sub/b.bin", "");
                      ("sub/c.txt", "")]) by reflexivity.
  exact (proj1 (read_files_yields_distinct_paths _ _ Hwf H)).
Defined.

(** ** The two scripts *)



(** ** The walk finds the files of the tree *)

Section TreeFiles.

Lemma perm_interleave {A : Type} (a b c d : list A) :
  Permutation ((a ++ b) ++ (c ++ d)) ((a ++ c) ++ (b ++ d)).
Proof.
  rewrite <- !List.app_assoc. apply Permutation_app_head.
  rewrite !List.app_assoc. apply Permutation_app_tail.
  apply Permutation_app_comm.
Qed.

(** Two loops over the same list, run one after the other, collect what
    one loop doing both collects, up to order. *)
Lemma perm_flat_map_pair {A B : Type} (f g h : A -> list B) (l : list A) :
  (forall x, In x l -> Permutation (f x ++ g x) (h x)) ->
  Permutation (flat_map f l ++ flat_map g l) (flat_map h l).
Proof.
  induction l as [|x l IH]; intros H; simpl; [constructor|].
  etransitivity; [apply perm_interleave|].
  apply Permutation_app.
  - apply H. now left.
  - apply IH. intros y Hy. apply H. now right.
Qed.

Lemma flat_map_flat_map {A B C : Type} (f : A -> list B)
    (g : B -> list C) (l : list A) :
  flat_map g (flat_map f l) = flat_map (fun x => flat_map g (f x)) l.
Proof.
  induction l as [|x l IH]; simpl; [reflexivity|].
  now rewrite flat_map_app, IH.
Qed.

Lemma map_flat_map {A B C : Type} (f : A -> list B) (g : B -> C)
    (l : list A) :
  map g (flat_map f l) = flat_map (fun x => map g (f x)) l.
Proof.
  induction l as [|x l IH]; simpl; [reflexivity|].
  now rewrite map_app, IH.
Qed.

(** The regular files of a walk are the files of the tree, each under
    the prefix of the walk followed by its path in the tree. *)
Lemma walk_finds_tree_files (n : node) :
  forall pre,
    Permutation (flat_map file_entry (rglob pre n))
      (map (fun '(p, content) => ((pre ++ p)%string, content))
         (tree_files n)).
Proof.
  induction n as [content| |entries IH| |content] using node_induction;
    intros pre; try constructor.
  cbn [rglob tree_files].
  rewrite flat_map_app, flat_map_map, flat_map_flat_map, map_flat_map.
  apply perm_flat_map_pair. intros [nm c] Hin.
  pose proof (proj1 (Forall_forall _ _) IH (nm, c) Hin) as IHc.
  simpl in IHc. destruct c as [content|sub| | |content].
  - simpl. apply Permutation_refl.
  - cbn [file_entry app].
    etransitivity; [apply IHc|].
    rewrite map_map. apply Permutation_refl'.
    apply map_ext. intros [p content]. now rewrite !append_assoc.
  - simpl. constructor.
  - simpl. constructor.
  - simpl. constructor.
Qed.

End TreeFiles.

(** X15: reading a directory returns, up to order, exactly the regular
    files found at any depth below it, each once, under its path
    relative to the root with the components joined by the separator,
    and with its text, or the empty string when its read failed;
    directories and other nodes contribute nothing. *)
Theorem read_files_finds_every_file (name : string)
    (entries : list (string * node)) (items : list (string * string)) :
  read_files (name, Dir entries) = Done items ->
  Permutation items (map text_or_empty (tree_files (Dir entries))) /\
  length items = length (tree_files (Dir entries)) /\
  (forall p txt,
      In (p, txt) items <->
      In (p, txt) (map text_or_empty (tree_files (Dir entries)))).
Proof.
  intros H. apply read_files_directory_done in H. subst items.
  assert (HP : Permutation (regular_files (Dir entries))
                 (tree_files (Dir entries))).
  { unfold regular_files.
    pose proof (walk_finds_tree_files (Dir entries) "") as HP.
    erewrite map_ext, map_id in HP; [exact HP|].
    now intros [p content]. }
  assert (HP' := Permutation_map text_or_empty HP).
  split; [exact HP'|]. split.
  - rewrite length_map. now apply Permutation_length.
  - intros p txt. split; intros Hin.
    + now apply (Permutation_in _ HP').
    + now apply (Permutation_in _ (Permutation_sym HP')).
Qed.

Lemma read_files_finds_every_file_witness :
  Permutation
    [("a.txt", "alpha beta"); ("sub/b.bin", ""); ("sub/c.txt", "")]
    (map text_or_empty (tree_files (snd sample_corpus))).
Proof.
  assert (H : read_files
                ("corpus",
                 Dir [("a.txt", File (Some "alpha beta"));
                      ("sub", Dir [("b.bin", File None);
                                   ("c.txt", File (Some ""))]);
                      ("pipe", Other)])
              = Done [("a.txt", "alpha beta"); ("sub/b.bin", "");
                      ("sub/c.txt", "")]) by reflexivity.
  exact (proj1 (read_files_finds_every_file _ _ _ H)).
Defined.

(** ** The number of entries *)

Section Counting.

Context {V : Type}.

Lemma entries_of_file_length (fuel : nat) (repo fname txt : string)
    (block : list (Entry.t V)) :
  entries_of_file fuel repo (fname, txt) = Done block ->
  length block = chunk_count txt.
Proof.
  intros H. apply entries_of_file_done in H as (chunks & Hc & ->).
  rewrite or_else_empty in Hc.
  rewrite length_map. unfold enumerate.
  rewrite <- (length_map fst), enumerate_from_fst, length_seq.
  assert (Hov : (0 <= default_overlap < default_max_words)%Z)
    by (unfold default_overlap, default_max_words; lia).
  unfold chunk_count.
  destruct (chunk_text_done _ _ _ _ _ Hov Hc) as [[Hs ->]|[Hl ->]].
  - destruct (Z.leb_spec (word_count txt) default_max_words);
      [reflexivity | lia].
  - destruct (Z.leb_spec (word_count txt) default_max_words); [lia|].
    now rewrite length_map, length_seq.
Qed.

Lemma blocks_length (fuel : nat) (repo : string)
    (items : list (string * string)) (blocks : list (list (Entry.t V))) :
  Forall2 (fun item block => entries_of_file fuel repo item = Done block)
    items blocks ->
  length (concat blocks)
  = list_sum (map (fun item => chunk_count (snd item)) items).
Proof.
  induction 1 as [|[fname txt] block items blocks Hb _ IH];
    [reflexivity|].
  simpl. rewrite length_app, IH.
  now rewrite (entries_of_file_length _ _ _ _ _ Hb).
Qed.

End Counting.

(** X16: the count [main] reports is determined by the word counts of
    the files read: a file of at most 600 words counts for one entry (an
    empty or unreadable one too), a longer file of W words for
    [ceil(W / 500)], and the report is "Wrote N entries" for the sum N. *)
Theorem main_reports_sum_of_chunk_counts {V : Type}
    (encode : list string -> list V) (resolve : string -> string * node)
    (fuel : nat) (prog root out : string) (rest : list string)
    (eff : effects V) (items : list (string * string)) :
  main encode resolve fuel (prog :: root :: out :: rest) = (eff, Done tt) ->
  read_files (resolve root) = Done items ->
  printed eff
  = [("Wrote "
      ++ Py.str_of_nat
           (list_sum (map (fun item => chunk_count (snd item)) items))
      ++ " entries")%string].
Proof.
  unfold main. intros H Hread.
  destruct (ingest encode resolve fuel root
              match rest with [] => "repo" | r :: _ => r end)
    as [entries| |] eqn:Hi; try discriminate H.
  injection H as <-. simpl. unfold report.
  apply ingest_done in Hi as (items' & built & Hread' & Hbuilt & Hemb).
  rewrite Hread in Hread'. injection Hread' as <-.
  apply build_entries_blocks in Hbuilt as (blocks & HF & ->).
  simpl app in Hemb.
  rewrite <- (Forall2_length Hemb), (blocks_length _ _ _ _ HF).
  reflexivity.
Qed.

Lemma main_reports_sum_of_chunk_counts_witness :
  list_sum (map (fun item => chunk_count (snd item)) [("big.txt", big_text)])
  = 3%nat /\
  printed (mkEffects [("out.json", big_entries)] ["Wrote 3 entries"])
  = [("Wrote "
      ++ Py.str_of_nat
           (list_sum (map (fun item => chunk_count (snd item))
                        [("big.txt", big_text)]))
      ++ " entries")%string].
Proof.
  assert (H : main sample_encode (fun _ => big_corpus) 4
                ["embed_all_files.py"; "corpus"; "out.json"]
              = (mkEffects [("out.json", big_entries)] ["Wrote 3 entries"],
                 Done tt)) by (vm_compute; reflexivity).
  assert (Hr : read_files ((fun _ : string => big_corpus) "corpus")
               = Done [("big.txt", big_text)]) by reflexivity.
  split; [vm_compute; reflexivity|].
  exact (main_reports_sum_of_chunk_counts _ _ _ _ _ _ _ _ _ H Hr).
Defined.

(** ** What every written entry satisfies *)

Section EntryBounds.

Context {V : Type}.

Lemma chunk_text_default_bound (fuel : nat) (txt : string)
    (chunks : list string) :
  chunk_text fuel txt default_max_words default_overlap = Done chunks ->
  Forall (fun c => (word_count c <= default_max_words)%Z) chunks.
Proof.
  intros H.
  assert (Hov : (0 <= default_overlap < default_max_words)%Z)
    by (unfold default_overlap, default_max_words; lia).
  destruct (chunk_text_done _ _ _ _ _ Hov H) as [[Hs ->]|[Hl ->]].
  - now repeat constructor.
  - apply Forall_forall. intros c Hc.
    apply in_map_iff in Hc as (k & <- & _). unfold word_count.
    rewrite (split_chunk_of txt _ _ Hov).
    rewrite (window_length (Py.split txt) _ _ Hov). lia.
Qed.

Lemma built_entries_bounded (fuel : nat) (repo : string)
    (items : list (string * string)) (blocks : list (list (Entry.t V))) :
  Forall2 (fun item block => entries_of_file fuel repo item = Done block)
    items blocks ->
  Forall (fun e =>
            In (Entry.path (Entry.meta e)) (map fst items) /\
            (word_count (Entry.text e) <= default_max_words)%Z)
    (concat blocks).
Proof.
  induction 1 as [|[fname txt] block items blocks Hb _ IH]; simpl;
    [constructor|].
  apply Forall_app. split.
  - apply entries_of_file_done in Hb as (chunks & Hc & ->).
    apply chunk_text_default_bound in Hc.
    apply Forall_forall. intros e He.
    apply in_map_iff in He as ([i ch] & <- & Hin).
    split; [now left|]. simpl.
    apply (proj1 (Forall_forall _ _) Hc).
    apply (in_map snd) in Hin. unfold enumerate in Hin.
    now rewrite enumerate_from_snd in Hin.
  - eapply Forall_impl; [|exact IH].
    intros e [Hp Hw]. split; [now right | exact Hw].
Qed.

End EntryBounds.

(** X17: every entry of a completed ingestion belongs to a file that was
    read and holds at most 600 words of text. *)
Theorem entries_are_bounded_chunks_of_read_files {V : Type}
    (encode : list string -> list V) (resolve : string -> string * node)
    (fuel : nat) (root repo : string) (entries : list (Entry.t V))
    (items : list (string * string)) :
  ingest encode resolve fuel root repo = Done entries ->
  read_files (resolve root) = Done items ->
  Forall (fun e =>
            In (Entry.path (Entry.meta e)) (map fst items) /\
            (word_count (Entry.text e) <= 600)%Z)
    entries.
Proof.
  intros H Hread.
  apply ingest_done in H as (items' & built & Hread' & Hbuilt & Hemb).
  rewrite Hread in Hread'. injection Hread' as <-.
  apply build_entries_blocks in Hbuilt as (blocks & HF & ->).
  simpl app in Hemb.
  apply (forall2_transfer embedded
           (fun e =>
              In (Entry.path (Entry.meta e)) (map fst items) /\
              (word_count (Entry.text e) <= default_max_words)%Z)
           _ _ _ Hemb).
  - intros a b [v ->] Ha. exact Ha.
  - now apply (built_entries_bounded fuel repo).
Qed.

Lemma entries_are_bounded_chunks_of_read_files_witness :
  Forall (fun e =>
            In (Entry.path (Entry.meta e)) (map fst [("big.txt", big_text)])
            /\ (word_count (Entry.text e) <= 600)%Z)
    big_entries.
Proof.
  assert (H : ingest sample_encode (fun _ => big_corpus) 4 "corpus" "repo"
              = Done big_entries) by (vm_compute; reflexivity).
  assert (Hr : read_files ((fun _ : string => big_corpus) "corpus")
               = Done [("big.txt", big_text)]) by reflexivity.
  exact (entries_are_bounded_chunks_of_read_files _ _ _ _ _ _ _ H Hr).
Defined.

(** ** Files that cannot be decoded, files that cannot be read *)

Section Undecodable.

(** The files of a directory are files of its tree, under their names. *)
Lemma tree_files_child (nm : string) (content : option string)
    (entries : list (string * node)) :
  In (nm, File content) entries ->
  In (nm, content) (tree_files (Dir entries)).
Proof.
  intros H. cbn [tree_files]. apply in_flat_map.
  exists (nm, File content). split; [exact H | now left].
Qed.

(** An entry that [stat] refuses to examine aborts the walk: the
    [is_file] test is outside the [try]. *)
Lemma read_files_denied_entry_aborts :
  read_files
    ("corpus",
     Dir [("locked", Dir [("x", Denied)]); ("a.txt", File (Some "alpha"))])
  = Raise OSError.
Proof. reflexivity. Qed.

End Undecodable.

(** C7 (as stated, refuted): the bytes "ab" followed by 0xFF cannot be
    decoded as text, yet the file that holds them is read without
    failure, because [errors='ignore'] drops the malformed byte; the walk
    yields its path with the text "ab", not with the empty string. *)
Lemma read_files_undecodable_counterexample :
  Py.decode Py.strict [Byte.x61; Byte.x62; Byte.xff] = Py.UnicodeDecodeError /\
  file_holding [Byte.x61; Byte.x62; Byte.xff] = Some (File (Some "ab")) /\
  read_files ("corpus", Dir [("bad.bin", File (Some "ab"))])
  = Done [("bad.bin", "ab")] /\
  ("bad.bin", "ab") <> ("bad.bin", "").
Proof. repeat split. discriminate. Qed.

(** C7 (amended): when the corpus reader walks a directory root every
    entry of which can be examined, it does not fail and returns one pair
    per regular file found at any depth below the root.  A file whose
    read raises gives its path with the empty string and the walk goes
    on; every other file gives its path with the text read.  A file
    whose bytes cannot be decoded is not a failed read: it gives its path
    with the text of its bytes without the malformed ones. *)
Theorem read_files_tolerates_unreadable (name : string)
    (entries : list (string * node)) :
  accessible (Dir entries) = true ->
  exists items,
    read_files (name, Dir entries) = Done items /\
    Permutation items (map text_or_empty (tree_files (Dir entries))) /\
    (forall p, In (p, None) (tree_files (Dir entries)) ->
               In (p, "") items) /\
    (forall p txt, In (p, Some txt) (tree_files (Dir entries)) ->
                   In (p, txt) items) /\
    (forall nm raw f,
        file_holding raw = Some f ->
        In (nm, f) entries ->
        exists s,
          Py.decode Py.ignore raw = Py.Decoded s /\
          In (nm, Py.universal_newlines s) items).
Proof.
  intros Hacc.
  exists (map text_or_empty (regular_files (Dir entries))).
  assert (HP : Permutation
                 (map text_or_empty (regular_files (Dir entries)))
                 (map text_or_empty (tree_files (Dir entries)))).
  { apply Permutation_map. unfold regular_files.
    pose proof (walk_finds_tree_files (Dir entries) "") as HP.
    erewrite map_ext, map_id in HP; [exact HP|].
    now intros [p content]. }
  assert (Hsome : forall p txt,
             In (p, Some txt) (tree_files (Dir entries)) ->
             In (p, txt) (map text_or_empty (regular_files (Dir entries)))).
  { intros p txt H. apply (Permutation_in _ (Permutation_sym HP)).
    now apply (in_map text_or_empty) in H. }
  split; [|split; [exact HP|split; [|split; [exact Hsome|]]]].
  - apply read_files_directory. now apply accessible_walk.
  - intros p H. apply (Permutation_in _ (Permutation_sym HP)).
    now apply (in_map text_or_empty) in H.
  - intros nm raw f Hf Hin. unfold file_holding in Hf.
    destruct (Py.decode Py.ignore raw) as [s| |]; try discriminate Hf.
    injection Hf as <-. exists s. split; [reflexivity|].
    apply Hsome. now apply tree_files_child.
Qed.

Lemma read_files_tolerates_unreadable_witness :
  exists items,
    read_files
      ("corpus",
       Dir [("a.txt", File (Some "alpha beta"));
            ("sub", Dir [("b.bin", File None); ("pipe", Other)]);
            ("bad.bin", File (Some "ab"))])
    = Done items /\
    In ("sub/b.bin", "") items /\
    In ("a.txt", "alpha beta") items /\
    In ("bad.bin", "ab") items.
Proof.
  destruct (read_files_tolerates_unreadable "corpus"
              [("a.txt", File (Some "alpha beta"));
               ("sub", Dir [("b.bin", File None); ("pipe", Other)]);
               ("bad.bin", File (Some "ab"))] ltac:(reflexivity))
    as (items & Hrun & _ & Hnone & Hsome & Hraw).
  exists items. split; [exact Hrun|].
  split; [apply Hnone; simpl; tauto|].
  split; [apply Hsome; simpl; tauto|].
  destruct (Hraw "bad.bin" [Byte.x61; Byte.x62; Byte.xff]
              (File (Some "ab")) ltac:(reflexivity) ltac:(simpl; tauto))
    as (s & Hs & Hin).
  vm_compute in Hs. injection Hs as <-. exact Hin.
Defined.
